(** * The editable unit (Block) and the read-only coordinator (Removeble)

    A shallow embedding of
      - src/components/modules/removeble.ts  (module [Removeble])
      - src/components/block/index.ts        (module [Block])
    together with the properties of the specification that concern them.

    JavaScript objects used as dictionaries are finite maps, JavaScript
    [Map]s are insertion-ordered association lists, exceptions and rejected
    promises are the [Thrown] completion, and every effect the code has on
    its surroundings (console, hooks of sibling modules, emitted events) is
    recorded in a trace. *)

From Stdlib Require Import ZArith.
From stdpp Require Import gmap strings list.

Open Scope Z_scope.

(** ** Completions

    A call either returns a value or throws.  An [async] function that
    throws returns a rejected promise and [await] on a rejected promise
    throws, so both are the one constructor [Thrown]. *)

(** A thrown value, as far as the code looks at it.  [null] and
    [undefined] have no properties: reading [e.message] of one is itself a
    TypeError.  Of any other value, [message] is the text that [e.message]
    gives in a template literal. *)
Inductive Exn :=
| Error (message : string)
| Null
| Undefined.

Inductive Completion (A : Type) : Type :=
| Returned (a : A)
| Thrown (e : Exn).
Arguments Returned {A} a.
Arguments Thrown {A} e.

(** [e.message], read in a template literal; the wording of the TypeError
    is that of V8. *)
Definition readMessage (e : Exn) : Completion string :=
  match e with
  | Error message => Returned message
  | Null =>
      Thrown (Error "Cannot read properties of null (reading 'message')")
  | Undefined =>
      Thrown (Error "Cannot read properties of undefined (reading 'message')")
  end.

(** The text of [e] in a template literal, an error object being of the
    class [Error]. *)
Definition toString (e : Exn) : string :=
  match e with
  | Error message => "Error: " +:+ message
  | Null => "null"
  | Undefined => "undefined"
  end.

(** ** Code that changes a state and may throw *)

Definition M (S A : Type) : Type := S → Completion A * S.

Definition ret {S A} (a : A) : M S A := λ st, (Returned a, st).

Definition bind {S A B} (m : M S A) (k : A → M S B) : M S B := λ st,
  match m st with
  | (Returned a, st') => k a st'
  | (Thrown e, st') => (Thrown e, st')
  end.

(** [try { m } catch (e) { h e }] *)
Definition try_catch {S A} (m : M S A) (h : Exn → M S A) : M S A := λ st,
  match m st with
  | (Returned a, st') => (Returned a, st')
  | (Thrown e, st') => h e st'
  end.

(** The call of a hook, and [await] of what it returns. *)
Definition hook {S A} (c : Completion A) : M S A := λ st, (c, st).

Notation "'let*' x ':=' m 'in' k" := (bind m (λ x, k))
  (at level 10, x binder, m at level 100, k at level 200,
   format "'[v' 'let*'  x  ':='  m  'in' '/' k ']'").

Notation "m1 ';;' m2" := (bind m1 (λ _, m2))
  (at level 100, m2 at level 200, right associativity,
   format "'[v' m1 ';;' '/' m2 ']'").

(** [t] occurs inside [s]. *)
Definition occurs_in (t s : string) : Prop :=
  ∃ pre post, s = pre +:+ t +:+ post.

(** * The read-only coordinator: removeble.ts *)

Module Removeble.

(** What [prepare] reads of a block tool in [Tools.blockTools]. *)
Record ToolEntry := {
  entry_name : string;
  isReadOnlySupported : bool;
}.

(** A member of [this.Editor]: a sibling module, and whether it has a
    [toggleReadOnly] method. *)
Record EditorModule := {
  module_name : string;
  has_toggleReadOnly : bool;
}.

(** The calls the coordinator makes on its collaborators, which are taken
    to return. *)
Inductive Effect :=
| ToggleReadOnly (name : string) (state : bool)
| SaverSave
| BlockManagerClear
| RendererRender.

Global Instance Effect_eq_dec : EqDecision Effect.
Proof. solve_decision. Defined.

Record State := {
  toolsDontSupportReadOnly : list string;
  removebleEnabled : bool;
}.

(** The fields as initialised by the class. *)
Definition initial : State :=
  {| toolsDontSupportReadOnly := []; removebleEnabled := false |}.

Definition isEnabled (st : State) : bool := removebleEnabled st.

Definition criticalMessage (st : State) : string :=
  "To enable read-only mode all connected tools should support it. Tools "
  +:+ String.concat ", " (toolsDontSupportReadOnly st)
  +:+ " don't support read-only mode.".

Definition throwCriticalError {A} (st : State) : Completion A :=
  Thrown (Error (criticalMessage st)).

(** The [for (const name in this.Editor)] loop of [toggle]. *)
Fixpoint callToggleReadOnly (Editor : list EditorModule) (state : bool)
  : list Effect :=
  match Editor with
  | [] => []
  | m :: rest =>
      if negb (has_toggleReadOnly m) then callToggleReadOnly rest state
      else ToggleReadOnly (module_name m) state :: callToggleReadOnly rest state
  end.

Definition reload : list Effect :=
  [SaverSave; BlockManagerClear; RendererRender].

(** [toggle(state = !this.removebleEnabled)]: the completion, the state
    left behind and the calls made, in order. *)
Definition toggle (Editor : list EditorModule) (arg : option bool) (st : State)
  : Completion bool * State * list Effect :=
  let state := default (negb (removebleEnabled st)) arg in
  if state && (0 <? Z.of_nat (length (toolsDontSupportReadOnly st)))
  then (throwCriticalError st, st, [])
  else
    let oldState := removebleEnabled st in
    let st' := {| toolsDontSupportReadOnly := toolsDontSupportReadOnly st;
                  removebleEnabled := state |} in
    let hooks := callToggleReadOnly Editor state in
    if bool_decide (oldState = state)
    then (Returned (removebleEnabled st'), st', hooks)
    else (Returned (removebleEnabled st'), st', hooks ++ reload).

(** The scan of [prepare] over [blockTools.entries()]. *)
Fixpoint scanTools (blockTools : list ToolEntry) : list string :=
  match blockTools with
  | [] => []
  | t :: rest =>
      if negb (isReadOnlySupported t) then entry_name t :: scanTools rest
      else scanTools rest
  end.

(** [prepare()], with [readOnly] the value of [this.config.readOnly].  The
    call of [toggle] is not awaited, so a failure of it would not make
    [prepare] fail; the guard before it fails in the same cases. *)
Definition prepare (Editor : list EditorModule) (blockTools : list ToolEntry)
    (readOnly : bool) (st : State)
  : Completion unit * State * list Effect :=
  let found := scanTools blockTools in
  let st1 := {| toolsDontSupportReadOnly := found;
                removebleEnabled := removebleEnabled st |} in
  if readOnly && (0 <? Z.of_nat (length found))
  then (throwCriticalError st1, st1, [])
  else
    let '(_, st2, fx) := toggle Editor (Some readOnly) st1 in
    (Returned (), st2, fx).

(** The states the coordinator can be in: after [prepare] has returned, and
    after any further call of [toggle], failed or not. *)
Inductive reachable (Editor : list EditorModule) (blockTools : list ToolEntry)
  : State → Prop :=
| reach_prepare readOnly st fx :
    prepare Editor blockTools readOnly initial = (Returned (), st, fx) →
    reachable Editor blockTools st
| reach_toggle arg st r st' fx :
    reachable Editor blockTools st →
    toggle Editor arg st = (r, st', fx) →
    reachable Editor blockTools st'.

End Removeble.

(** * The editable unit: block/index.ts *)

Module Block.

Local Set Warnings "-register-all".

(** ** The DOM a unit builds *)

(** Modelled from the spec: the "low-level DOM element construction
    helpers" are in dom.ts, which is not among the sources.  An element is
    its tag, its classes, its attributes and its children; markup assigned
    to [innerHTML] is kept as it is. *)
Inductive HTMLElement :=
| Element (tagName : string) (classList : list string)
    (attributes : list (string * string)) (childNodes : list HTMLElement)
| InnerHTML (markup : string).

(** Modelled from the spec: [$.make(tagName, cls)] of dom.ts, a new element
    with that tag and class. *)
Definition make (tagName cls : string) : HTMLElement :=
  Element tagName [cls] [] [].

(** Modelled from the spec: [$.svg(name, width, height)] of dom.ts, an
    icon. *)
Definition svg (name : string) (width height : Z) : HTMLElement :=
  Element "svg" ["icon"; "icon--" +:+ name] [] [].

Definition appendChild (parent child : HTMLElement) : HTMLElement :=
  match parent with
  | Element t c a ch => Element t c a (ch ++ [child])
  | InnerHTML m => InnerHTML m
  end.

Definition setAttribute (el : HTMLElement) (k v : string) : HTMLElement :=
  match el with
  | Element t c a ch => Element t c (a ++ [(k, v)]) ch
  | InnerHTML m => InnerHTML m
  end.

(** [Block.CSS]. *)
Module CSS.
Definition toolbox := "ce-toolbox-add1".
Definition toolboxOpened := "ce-toolbox-add1--opened".
Definition toolboxButton := "ce-toolbox-add1__button".
Definition toolboxSpan := "ce-toolbox-add1__span".
Definition wrapper := "ce-block".
Definition wrapperStretched := "ce-block--stretched".
Definition content := "ce-block__content".
Definition add := "ce-block__add".
Definition dnd := "ce-block__content--dnd".
Definition remove := "ce-block__content--remove".
Definition settings := "ce-block__content--settings".
Definition focused := "ce-block--focused".
Definition selected := "ce-block--selected".
Definition dropTarget := "ce-block--drop-target".
End CSS.

(** [BlockToolAPI]. *)
Definition APPEND_CALLBACK := "appendCallback".
Definition RENDERED := "rendered".
Definition MOVED := "moved".
Definition UPDATED := "updated".
Definition REMOVED := "removed".
Definition ON_PASTE := "onPaste".

(** ** JavaScript [Map]: keys in insertion order, [set] on a present key
    replaces its value in place. *)
Fixpoint Map_set {V} (k : string) (v : V) (m : list (string * V))
  : list (string * V) :=
  match m with
  | [] => [(k, v)]
  | (k', v') :: rest =>
      if decide (k' = k) then (k, v) :: rest else (k', v') :: Map_set k v rest
  end.

Definition Map_has {V} (k : string) (m : list (string * V)) : bool :=
  bool_decide (k ∈ m.*1).

(** [arr[i]] for a number [i] that is an integer: [undefined] outside the
    array. *)
Definition js_index {A} (arr : list A) (i : Z) : option A :=
  if i <? 0 then None else arr !! Z.to_nat i.

(** [Array.prototype.findIndex], counting from [i]. *)
Fixpoint findIndex {A} (p : A → bool) (arr : list A) (i : Z) : Z :=
  match arr with
  | [] => -1
  | x :: rest => if p x then i else findIndex p rest (i + 1)
  end.

(** What a mutation record shows of a node: [$.isElement(node)] and, for an
    element, [node.dataset.mutationFree]. *)
Record DomNode := {
  isElement : bool;
  mutationFree : option string;
}.

Record MutationRecord := {
  addedNodes : list DomNode;
  removedNodes : list DomNode;
}.

(** What is written with [_.log]. *)
Inductive LogArg :=
| ArgExn (e : Exn)
| ArgStr (s : string).

(** What a unit does to its surroundings. *)
Inductive Event :=
| Log (msg type : string) (args : option LogArg)
| ToolMethod (methodName : string)
| Emit (eventName : string)
| DispatcherDestroy.

(** References to JavaScript objects. *)
Definition loc := positive.

(** The browser and the helper modules the unit reads.  [World] is the
    state of everything outside the unit (document, selection, clock, the
    hidden state of tools and tunes) at the time of a call; [NodeRef] is a
    reference to a live DOM node, compared with [===]. *)
Class Browser (World NodeRef : Type) := {
  NodeRef_eq_dec :: EqDecision NodeRef;
  (** [$.findAllInputs(this.holder)] *)
  findAllInputs : World → list NodeRef;
  (** [input.contains(element)] *)
  contains : World → NodeRef → NodeRef → bool;
  (** [$.isNativeInput(document.activeElement)] *)
  isNativeInput : World → option NodeRef → bool;
  activeElement : World → option NodeRef;
  (** [SelectionUtils.anchorNode] *)
  anchorNode : World → option NodeRef;
  (** the two readings of [window.performance.now()] in [save] *)
  measuringStart : World → Z;
  measuringEnd : World → Z;
  (** [_.generateBlockId()] *)
  generateBlockId : World → string;
  (** [I18n.t(I18nInternalNS.toolNames, key)] *)
  I18n_t : string → string;
}.

Section Unit.
Context {BlockToolData BlockTuneData World NodeRef : Type}.
Context `{!Browser World NodeRef}.

(** ** Tools and tunes

    A hook is user code: called in a world, it returns or throws.  An
    optional hook that the object does not implement is [None].  A hook is
    called at most once in each operation of the unit, so what it does
    there is a function of the world the operation is made in; it is taken
    not to write to the fields of the unit.  [render] and the factories of
    tools and tunes are taken to return. *)
Record ToolInstance := {
  tool_render : HTMLElement;
  tool_save : World → Completion BlockToolData;
  tool_validate : option (BlockToolData → World → Completion bool);
  tool_merge : option (BlockToolData → World → Completion ());
  tool_destroy : option (World → Completion ());
  (** [toolInstance[methodName]] when it is a function *)
  tool_method : string → option (World → Completion ());
}.

Record TuneInstance := {
  constructor_name : string;
  tune_save : option (World → Completion BlockTuneData);
  tune_wrap : option (HTMLElement → World → Completion HTMLElement);
}.

(** [BlockTune] of tools/tune.ts, as far as the unit uses it. *)
Record BlockTune := {
  tune_name : string;
  isInternal : bool;
  tune_create : option BlockTuneData → TuneInstance;
}.

(** [tool.toolbox]; an absent or empty string is falsy. *)
Record Toolbox := {
  icon : string;
  title : string;
}.

(** [BlockTool] of tools/block.ts, as far as the unit uses it. *)
Record BlockTool := {
  tool_name : string;
  tool_create : BlockToolData → bool → ToolInstance;
  tool_tunes : list BlockTune;
  tool_toolbox : option Toolbox;
}.

Record BlockConstructorOptions := {
  opt_id : option string;
  opt_data : BlockToolData;
  opt_tool : BlockTool;
  (** [api.Editor.Tools.blockTools.values()] *)
  opt_api_blockTools : list BlockTool;
  opt_readOnly : bool;
  opt_canBeRemoved : bool;
  opt_canBeEdited : bool;
  opt_tunesData : gmap string BlockTuneData;
}.

(** The fields of a unit that are set once, in the constructor.
    [unavailableTunesData] is a reference: the object lives in the heap. *)
Record Block := {
  id : string;
  name : string;
  canBeRemoved : bool;
  canBeEdited : bool;
  toolInstance : ToolInstance;
  tunesInstances : list (string * TuneInstance);
  defaultTunesInstances : list (string * TuneInstance);
  unavailableTunesData : loc;
  holder : HTMLElement;
  nodes_buttons : list HTMLElement;
  displayedToolsCount : Z;
}.

(** [SavedData]; [tunes] is a reference to the object, not a copy. *)
Record SavedData := {
  saved_id : string;
  saved_tool : string;
  saved_data : BlockToolData;
  saved_tunes : loc;
  saved_time : Z;
}.

(** The fields of a unit that change, the objects it refers to and the
    trace of what it did. *)
Record State := {
  heap : gmap loc (gmap string BlockTuneData);
  cachedInputs : list NodeRef;
  inputIndex : Z;
  trace : list Event;
}.

(** The object behind a reference. *)
Definition deref (h : gmap loc (gmap string BlockTuneData)) (l : loc)
  : gmap string BlockTuneData :=
  default ∅ (h !! l).

Definition record (ev : Event) : M State () := λ st,
  (Returned (),
   {| heap := heap st; cachedInputs := cachedInputs st;
      inputIndex := inputIndex st; trace := trace st ++ [ev] |}).

Definition log (msg type : string) (args : option LogArg) : M State () :=
  record (Log msg type args).

Definition get_cachedInputs : M State (list NodeRef) := λ st,
  (Returned (cachedInputs st), st).

Definition set_cachedInputs (v : list NodeRef) : M State () := λ st,
  (Returned (),
   {| heap := heap st; cachedInputs := v;
      inputIndex := inputIndex st; trace := trace st |}).

Definition get_inputIndex : M State Z := λ st, (Returned (inputIndex st), st).

Definition set_inputIndex (v : Z) : M State () := λ st,
  (Returned (),
   {| heap := heap st; cachedInputs := cachedInputs st;
      inputIndex := v; trace := trace st |}).

(** A new object. *)
Definition alloc (obj : gmap string BlockTuneData) : M State loc := λ st,
  let l := fresh (dom (heap st)) in
  (Returned l,
   {| heap := <[l := obj]> (heap st); cachedInputs := cachedInputs st;
      inputIndex := inputIndex st; trace := trace st |}).

(** [obj[k] = v] *)
Definition obj_set (l : loc) (k : string) (v : BlockTuneData) : M State () :=
  λ st,
  (Returned (),
   {| heap := <[l := <[k := v]> (deref (heap st) l)]> (heap st);
      cachedInputs := cachedInputs st;
      inputIndex := inputIndex st; trace := trace st |}).

(** ** Inputs *)

(** [get inputs()] *)
Definition inputs (w : World) : M State (list NodeRef) :=
  let* cached := get_cachedInputs in
  if negb (Z.of_nat (length cached) =? 0) then ret cached
  else
    let inputs := findAllInputs w in
    let* inputIndex := get_inputIndex in
    (if inputIndex >? Z.of_nat (length inputs) - 1
     then set_inputIndex (Z.of_nat (length inputs) - 1)
     else ret ());;
    set_cachedInputs inputs;;
    ret inputs.

(** [get currentInput()]: [this.inputs] is read first, the index after. *)
Definition currentInput (w : World) : M State (option NodeRef) :=
  let* inputs := inputs w in
  let* inputIndex := get_inputIndex in
  ret (js_index inputs inputIndex).

(** [input === element || input.contains(element)]; [None] is [null]. *)
Definition owns (w : World) (element : option NodeRef) (input : NodeRef)
  : bool :=
  match element with
  | Some element => bool_decide (input = element) || contains w input element
  | None => false
  end.

(** [set currentInput(element)] *)
Definition set_currentInput (w : World) (element : option NodeRef)
  : M State () :=
  let* inputs := inputs w in
  let index := findIndex (owns w element) inputs 0 in
  if negb (index =? -1) then set_inputIndex index else ret ().

Definition firstInput (w : World) : M State (option NodeRef) :=
  let* inputs := inputs w in
  ret (js_index inputs 0).

Definition lastInput (w : World) : M State (option NodeRef) :=
  let* inputs := inputs w in
  ret (js_index inputs (Z.of_nat (length inputs) - 1)).

Definition nextInput (w : World) : M State (option NodeRef) :=
  let* inputs := inputs w in
  let* inputIndex := get_inputIndex in
  ret (js_index inputs (inputIndex + 1)).

Definition previousInput (w : World) : M State (option NodeRef) :=
  let* inputs := inputs w in
  let* inputIndex := get_inputIndex in
  ret (js_index inputs (inputIndex - 1)).

(** The node [updateCurrentInput] takes from the live selection. *)
Definition selectionTarget (w : World) : option NodeRef :=
  if isNativeInput w (activeElement w)
     || negb (bool_decide (is_Some (anchorNode w)))
  then activeElement w
  else anchorNode w.

Definition updateCurrentInput (w : World) : M State () :=
  set_currentInput w (selectionTarget w).

Definition handleFocus (w : World) : M State () :=
  set_cachedInputs [];;
  updateCurrentInput w.

(** ** Calls of the tool *)

(** [call(methodName, params)]; the parameters go to the hook as they
    are.  The handler reads [e.message]: of [null] or [undefined] that
    throws, out of [call]. *)
Definition call (w : World) (toolInstance : ToolInstance)
    (methodName : string) : M State () :=
  match tool_method toolInstance methodName with
  | Some method =>
      (if bool_decide (methodName = APPEND_CALLBACK)
       then log ("`appendCallback` hook is deprecated and will be removed in the next major release. "
                 +:+ "Use `rendered` hook instead") "warn" None
       else ret ());;
      try_catch
        (record (ToolMethod methodName);;
         hook (method w))
        (λ e,
           let* message := hook (readMessage e) in
           log ("Error during '" +:+ methodName +:+ "' call: " +:+ message)
             "error" None)
  | None => ret ()
  end.

(** [mergeWith(data)]; calling what is not a function is a TypeError. *)
Definition mergeWith (w : World) (toolInstance : ToolInstance)
    (data : BlockToolData) : M State () :=
  match tool_merge toolInstance with
  | Some merge => hook (merge data w)
  | None =>
      hook (Thrown (Error "this.toolInstance.merge is not a function"))
  end.

Definition validate (w : World) (toolInstance : ToolInstance)
    (data : BlockToolData) : M State bool :=
  let isValid := true in
  match tool_validate toolInstance with
  | Some validate => hook (validate data w)
  | None => ret isValid
  end.

(** [destroy()]; [super.destroy()] is that of the events dispatcher. *)
Definition destroy (w : World) (toolInstance : ToolInstance) : M State () :=
  record DispatcherDestroy;;
  match tool_destroy toolInstance with
  | Some destroy => hook (destroy w)
  | None => ret ()
  end.

(** ** Mutations *)

(** The body of the debounced [didMutated]. *)
Definition didMutated (w : World) (toolInstance : ToolInstance)
    (mutations : list MutationRecord) : M State () :=
  let shouldFireUpdate :=
    negb (existsb
            (λ r,
               existsb
                 (λ node,
                    isElement node
                    && bool_decide (mutationFree node = Some "true"))
                 (addedNodes r ++ removedNodes r))
            mutations) in
  if negb shouldFireUpdate then ret ()
  else
    set_cachedInputs [];;
    updateCurrentInput w;;
    call w toolInstance UPDATED;;
    record (Emit "didMutated").

(** ** Saving *)

(** The [forEach] of [save] over the entries of both maps of tunes. *)
Fixpoint saveTunes (w : World) (tunesData : loc)
    (entries : list (string * TuneInstance)) : M State () :=
  match entries with
  | [] => ret ()
  | (name, tune) :: rest =>
      match tune_save tune with
      | Some save =>
          try_catch
            (let* data := hook (save w) in
             obj_set tunesData name data)
            (λ e, log ("Tune " +:+ constructor_name tune
                       +:+ " save method throws an Error %o")
                    "warn" (Some (ArgExn e)))
      | None => ret ()
      end;;
      saveTunes w tunesData rest
  end.

(** [save()]: [None] is the promise resolved with nothing. *)
Definition save (w : World) (b : Block) : M State (option SavedData) :=
  let* extractedBlock := hook (tool_save (toolInstance b) w) in
  let tunesData := unavailableTunesData b in
  saveTunes w tunesData (tunesInstances b ++ defaultTunesInstances b);;
  try_catch
    (let* finishedExtraction := ret extractedBlock in
     ret (Some {| saved_id := id b;
                  saved_tool := name b;
                  saved_data := finishedExtraction;
                  saved_tunes := tunesData;
                  saved_time := measuringEnd w - measuringStart w |}))
    (λ error,
       log ("Saving proccess for " +:+ name b
            +:+ " tool failed due to the " +:+ toString error)
         "log" (Some (ArgStr "red"));;
       ret None).

(** ** Construction *)

(** The first loop of [composeTunes]: one instance per tune of the tool,
    internal ones apart.  The pair is
    ([tunesInstances], [defaultTunesInstances]). *)
Fixpoint instantiateTunes (tunes : list BlockTune)
    (tunesData : gmap string BlockTuneData)
    (maps : list (string * TuneInstance) * list (string * TuneInstance))
  : list (string * TuneInstance) * list (string * TuneInstance) :=
  match tunes with
  | [] => maps
  | tune :: rest =>
      let instance := tune_create tune (tunesData !! tune_name tune) in
      instantiateTunes rest tunesData
        (if isInternal tune
         then (maps.1, Map_set (tune_name tune) instance maps.2)
         else (Map_set (tune_name tune) instance maps.1, maps.2))
  end.

(** The second loop of [composeTunes], over [Object.entries(tunesData)]. *)
Fixpoint retainUnavailable (entries : list (string * BlockTuneData))
    (tunesInstances : list (string * TuneInstance))
    (unavailableTunesData : loc) : M State () :=
  match entries with
  | [] => ret ()
  | (name, data) :: rest =>
      (if negb (Map_has name tunesInstances)
       then obj_set unavailableTunesData name data
       else ret ());;
      retainUnavailable rest tunesInstances unavailableTunesData
  end.

(** [composeTunes(tunesData)]: both loops; it yields
    ([tunesInstances], [defaultTunesInstances]). *)
Definition composeTunes (tunes : list BlockTune)
    (tunesData : gmap string BlockTuneData) (unavailableTunesData : loc)
  : M State (list (string * TuneInstance) * list (string * TuneInstance)) :=
  let maps := instantiateTunes tunes tunesData ([], []) in
  retainUnavailable (map_to_list tunesData) maps.1 unavailableTunesData;;
  ret maps.

(** [addTool(tool)] on the picker, the list of buttons and the count.  The
    button is appended to the picker twice, by [$.append] and by
    [appendChild]: the second call moves the node, the picker has it
    once. *)
Definition addTool (tool : BlockTool)
    (acc : HTMLElement * list HTMLElement * Z)
  : M State (HTMLElement * list HTMLElement * Z) :=
  match tool_toolbox tool with
  | None => ret acc
  | Some toolToolboxSettings =>
      if bool_decide (icon toolToolboxSettings = "")
      then
        log "Toolbar icon is missed. Tool %o skipped" "warn"
          (Some (ArgStr (tool_name tool)));;
        ret acc
      else
        let button := make "li" CSS.toolboxButton in
        let span := make "span" CSS.toolboxSpan in
        let button := setAttribute button "data-tool" (tool_name tool) in
        let button := appendChild button (InnerHTML (icon toolToolboxSettings)) in
        let span :=
          appendChild span
            (InnerHTML
               (I18n_t (if bool_decide (title toolToolboxSettings = "")
                        then tool_name tool
                        else title toolToolboxSettings))) in
        let button := appendChild button span in
        ret (appendChild acc.1.1 button, acc.1.2 ++ [button], acc.2 + 1)
  end.

Fixpoint addTools (tools : list BlockTool)
    (acc : HTMLElement * list HTMLElement * Z)
  : M State (HTMLElement * list HTMLElement * Z) :=
  match tools with
  | [] => ret acc
  | tool :: rest =>
      let* acc := addTool tool acc in
      addTools rest acc
  end.

(** The [forEach] of [compose] over the tunes, user tunes first. *)
Fixpoint wrapTunes (w : World) (tunes : list TuneInstance)
    (wrappedContentNode : HTMLElement) : M State HTMLElement :=
  match tunes with
  | [] => ret wrappedContentNode
  | tune :: rest =>
      let* wrappedContentNode :=
        match tune_wrap tune with
        | Some wrap =>
            try_catch
              (hook (wrap wrappedContentNode w))
              (λ e,
                 log ("Tune " +:+ constructor_name tune
                      +:+ " wrap method throws an Error %o")
                   "warn" (Some (ArgExn e));;
                 ret wrappedContentNode)
        | None => ret wrappedContentNode
        end in
      wrapTunes w rest wrappedContentNode
  end.

(** The content node of [compose], before any tune wraps it. *)
Definition contentNodeOf (pluginsContent : HTMLElement) : HTMLElement :=
  let contentNode := make "div" CSS.content in
  let dnd := make "div" CSS.dnd in
  let settings := make "div" CSS.settings in
  let dnd := appendChild dnd (svg "drag" 13 13) in
  let settings := appendChild settings (svg "settings" 13 13) in
  let dnd := setAttribute dnd "draggable" "true" in
  let contentNode := appendChild contentNode dnd in
  let contentNode := appendChild contentNode pluginsContent in
  appendChild contentNode settings.

(** [compose()]: the holder, [nodes.buttons] and [displayedToolsCount].
    The picker is filled before it is put under [add]; in the source it
    is appended first and filled in place. *)
Definition compose (w : World) (toolInstance : ToolInstance)
    (tunesInstances defaultTunesInstances : list (string * TuneInstance))
    (blockTools : list BlockTool)
  : M State (HTMLElement * list HTMLElement * Z) :=
  let wrapper := make "div" CSS.wrapper in
  let add := make "div" CSS.add in
  let pluginsContent := tool_render toolInstance in
  let add := appendChild add (svg "intermediate_plus" 13 13) in
  let* picker := addTools blockTools (make "div" CSS.toolbox, [], 0) in
  let add := appendChild add picker.1.1 in
  let contentNode := contentNodeOf pluginsContent in
  let* wrappedContentNode :=
    wrapTunes w (tunesInstances.*2 ++ defaultTunesInstances.*2)
      contentNode in
  let wrapper := appendChild wrapper wrappedContentNode in
  let wrapper := appendChild wrapper add in
  ret (wrapper, picker.1.2, picker.2).

(** [new Block(options)]. *)
Definition new (w : World) (options : BlockConstructorOptions)
  : M State Block :=
  let tool := opt_tool options in
  set_cachedInputs [];;
  let* unavailableTunesData := alloc ∅ in
  set_inputIndex 0;;
  let toolInstance :=
    tool_create tool (opt_data options) (opt_readOnly options) in
  let* maps :=
    composeTunes (tool_tunes tool) (opt_tunesData options)
      unavailableTunesData in
  let* composed :=
    compose w toolInstance maps.1 maps.2 (opt_api_blockTools options) in
  ret {| id := default (generateBlockId w) (opt_id options);
         name := tool_name tool;
         canBeRemoved := opt_canBeRemoved options;
         canBeEdited := opt_canBeEdited options;
         toolInstance := toolInstance;
         tunesInstances := maps.1;
         defaultTunesInstances := maps.2;
         unavailableTunesData := unavailableTunesData;
         holder := composed.1.1;
         nodes_buttons := composed.1.2;
         displayedToolsCount := composed.2 |}.

(** ** Vocabulary of the properties *)




(** The index [updateCurrentInput] leaves when the cache is empty: that
    of the first live input owning the selection target, else the old
    index, cut down to the last position. *)
Definition resolvedIndex (w : World) (old : Z) : Z :=
  let index := findIndex (owns w (selectionTarget w)) (findAllInputs w) 0 in
  if index =? -1
  then Z.min old (Z.of_nat (length (findAllInputs w)) - 1)
  else index.

(** The method [methodName] of the tool, called in world [w], throws
    [null] or [undefined]. *)
Definition throwsNullish (w : World) (toolInstance : ToolInstance)
    (methodName : string) : bool :=
  match tool_method toolInstance methodName with
  | Some method =>
      match method w with
      | Thrown Null | Thrown Undefined => true
      | _ => false
      end
  | None => false
  end.

(** What a tune adds to a save made in world [w]: the payload its hook
    returns; nothing when it has no hook or the hook throws. *)
Definition tunePayload (w : World) (tune : TuneInstance)
  : option BlockTuneData :=
  match tune_save tune with
  | Some save =>
      match save w with
      | Returned data => Some data
      | Thrown _ => None
      end
  | None => None
  end.

(** The object after the payloads of [entries] were written into it. *)
Definition mergePayloads (w : World) (obj : gmap string BlockTuneData)
    (entries : list (string * TuneInstance)) : gmap string BlockTuneData :=
  foldl
    (λ obj entry,
       match tunePayload w entry.2 with
       | Some data => <[entry.1 := data]> obj
       | None => obj
       end)
    obj entries.

(** The warning [save] logs for a tune whose hook throws [e]. *)
Definition saveWarning (tune : TuneInstance) (e : Exn) : Event :=
  Log ("Tune " +:+ constructor_name tune
       +:+ " save method throws an Error %o")
    "warn" (Some (ArgExn e)).

Definition saveWarnings (w : World) (entries : list (string * TuneInstance))
  : list Event :=
  omap
    (λ entry : string * TuneInstance,
       match tune_save entry.2 with
       | Some save =>
           match save w with
           | Returned _ => None
           | Thrown e => Some (saveWarning entry.2 e)
           end
       | None => None
       end)
    entries.

(** The tunes of a unit in the order [save] and [compose] visit them. *)
Definition tuneEntries (b : Block) : list (string * TuneInstance) :=
  tunesInstances b ++ defaultTunesInstances b.

(** One step of the left fold over the tunes: the wrapper the tune
    puts around what was built so far; a tune without [wrap], or whose
    [wrap] throws, adds none. *)
Definition wrapStep (w : World) (inner : HTMLElement) (tune : TuneInstance)
  : HTMLElement :=
  match tune_wrap tune with
  | Some wrap =>
      match wrap inner w with
      | Returned outer => outer
      | Thrown _ => inner
      end
  | None => inner
  end.

(** [outer] is what the tune does to a node in world [w]; the identity
    for a tune without [wrap]. *)
Definition wrapsAs (w : World) (tune : TuneInstance)
    (outer : HTMLElement → HTMLElement) : Prop :=
  match tune_wrap tune with
  | Some wrap => ∀ inner, wrap inner w = Returned (outer inner)
  | None => ∀ inner, outer inner = inner
  end.

(** Two states that differ in the trace at most. *)
Definition sameButTrace (st st' : State) : Prop :=
  heap st' = heap st ∧ cachedInputs st' = cachedInputs st
  ∧ inputIndex st' = inputIndex st.

(** The state after the unit was saved in each world of [ws] in turn,
    whatever came of each save. *)
Definition afterSaves (b : Block) (ws : list World) (st : State) : State :=
  foldl (λ st w, (save w b st).2) st ws.

(** The warning [compose] logs for a tune whose [wrap] throws [e]. *)
Definition wrapWarning (tune : TuneInstance) (e : Exn) : Event :=
  Log ("Tune " +:+ constructor_name tune
       +:+ " wrap method throws an Error %o")
    "warn" (Some (ArgExn e)).

(** ** Further members of the unit *)

(** The operations of a unit that read or write its fields, and a run of
    them: each is made in a world of its own, what it returns is dropped
    and the state is passed on, also when it throws. *)
Inductive Operation :=
| GetInputs
| GetCurrentInput
| SetCurrentInput (element : option NodeRef)
| GetFirstInput
| GetLastInput
| GetNextInput
| GetPreviousInput
| UpdateCurrentInput
| HandleFocus
| DidMutated (mutations : list MutationRecord)
| Call (methodName : string)
| MergeWith (data : BlockToolData)
| Save
| Validate (data : BlockToolData)
| Destroy.

Definition perform (b : Block) (step : World * Operation) (st : State)
  : State :=
  let w := step.1 in
  match step.2 with
  | GetInputs => (inputs w st).2
  | GetCurrentInput => (currentInput w st).2
  | SetCurrentInput element => (set_currentInput w element st).2
  | GetFirstInput => (firstInput w st).2
  | GetLastInput => (lastInput w st).2
  | GetNextInput => (nextInput w st).2
  | GetPreviousInput => (previousInput w st).2
  | UpdateCurrentInput => (updateCurrentInput w st).2
  | HandleFocus => (handleFocus w st).2
  | DidMutated mutations => (didMutated w (toolInstance b) mutations st).2
  | Call methodName => (call w (toolInstance b) methodName st).2
  | MergeWith data => (mergeWith w (toolInstance b) data st).2
  | Save => (save w b st).2
  | Validate data => (validate w (toolInstance b) data st).2
  | Destroy => (destroy w (toolInstance b) st).2
  end.

Definition performAll (b : Block) (steps : list (World * Operation))
    (st : State) : State :=
  foldl (λ st step, perform b step st) st steps.

(** The tracked index is [-1] or a position of the cached list, when there
    is one. *)
Definition indexInRange (st : State) : Prop :=
  -1 ≤ inputIndex st
  ∧ (cachedInputs st ≠ [] →
     inputIndex st < Z.of_nat (length (cachedInputs st))).

(** [el.getAttribute(k)]: the value set last. *)
Definition getAttribute (k : string) (el : HTMLElement) : option string :=
  match el with
  | Element _ _ attributes _ =>
      snd <$> last (filter (λ kv, kv.1 = k) attributes)
  | InnerHTML _ => None
  end.

(** The tools [addTool] makes a button for, and those it warns about. *)
Definition hasToolboxIcon (tool : BlockTool) : bool :=
  match tool_toolbox tool with
  | Some toolbox => negb (bool_decide (icon toolbox = ""))
  | None => false
  end.

Definition iconMissing (tool : BlockTool) : bool :=
  match tool_toolbox tool with
  | Some toolbox => bool_decide (icon toolbox = "")
  | None => false
  end.

Definition iconWarning (tool : BlockTool) : Event :=
  Log "Toolbar icon is missed. Tool %o skipped" "warn"
    (Some (ArgStr (tool_name tool))).

(** The entry [composeTunes] makes for a tune. *)
Definition instanceOf (tunesData : gmap string BlockTuneData)
    (tune : BlockTune) : string * TuneInstance :=
  (tune_name tune, tune_create tune (tunesData !! tune_name tune)).

(** ** The content of the tool inside the holder *)

(** [querySelector] of the browser, for a class: the node itself or its
    first descendant, in document order, that has the class; markup kept as
    [InnerHTML] is not looked into. *)
Fixpoint firstWithClass (cls : string) (el : HTMLElement)
  : option HTMLElement :=
  match el with
  | Element _ classList _ childNodes =>
      if bool_decide (cls ∈ classList) then Some el
      else
        (fix among (nodes : list HTMLElement) : option HTMLElement :=
           match nodes with
           | [] => None
           | node :: rest =>
               match firstWithClass cls node with
               | Some found => Some found
               | None => among rest
               end
           end) childNodes
  | InnerHTML _ => None
  end.

(** [el.querySelector("." + cls)]: among the descendants only. *)
Definition querySelector (cls : string) (el : HTMLElement)
  : option HTMLElement :=
  match el with
  | Element _ _ _ childNodes =>
      (fix among (nodes : list HTMLElement) : option HTMLElement :=
         match nodes with
         | [] => None
         | node :: rest =>
             match firstWithClass cls node with
             | Some found => Some found
             | None => among rest
             end
         end) childNodes
  | InnerHTML _ => None
  end.

(** The loop of [pluginsContent]: the iterations whose index is below
    [child], the highest first. *)
Fixpoint scanContent (isExtensionNode : HTMLElement → bool)
    (childNodes : list HTMLElement) (child : nat) : option HTMLElement :=
  match child with
  | O => None
  | S child =>
      match childNodes !! child with
      | Some contentNode =>
          if negb (isExtensionNode contentNode) then Some contentNode
          else scanContent isExtensionNode childNodes child
      | None => scanContent isExtensionNode childNodes child
      end
  end.

(** [get pluginsContent()], read on the holder as composed;
    [isExtensionNode] is [$.isExtensionNode] of dom.ts; [None] is [null].
    The loop starts at the last child but one. *)
Definition pluginsContent (isExtensionNode : HTMLElement → bool)
    (holder : HTMLElement) : option HTMLElement :=
  match querySelector CSS.content holder with
  | Some (Element _ _ _ childNodes) =>
      if negb (Z.of_nat (length childNodes) =? 0)
      then scanContent isExtensionNode childNodes (length childNodes - 1)
      else None
  | _ => None
  end.

(** A tune that, when it wraps and does not throw, returns a new element
    around the node it was given, not of the class of the content node. *)
Definition wrapsPlainly (w : World) (tune : TuneInstance) : Prop :=
  ∀ wrap inner,
    tune_wrap tune = Some wrap →
    (∃ e, wrap inner w = Thrown e)
    ∨ (∃ tagName classList attributes,
         (CSS.content ∉ classList)
         ∧ wrap inner w
           = Returned (Element tagName classList attributes [inner])).

(** ** Selection: the mutation observer and the listeners on the inputs *)

(** A unit with what it has registered: whether its mutation observer is
    connected, and its listeners as pairs of a target and an event type:
    ["focus"] is handled by [handleFocus], ["input"] by [didMutated]. *)
Record Selected := {
  unitState : State;
  observing : bool;
  listeners : list (NodeRef * string);
}.

(** Code of the unit proper, run on the unit inside. *)
Definition onUnit {A} (m : M State A) : M Selected A := λ s,
  ((m (unitState s)).1,
   {| unitState := (m (unitState s)).2; observing := observing s;
      listeners := listeners s |}).

(** [target.addEventListener(type, handler)] of the browser: a listener
    that is registered already is not registered again. *)
Definition addEventListener (target : NodeRef) (type : string)
  : M Selected () := λ s,
  (Returned (),
   {| unitState := unitState s; observing := observing s;
      listeners :=
        if bool_decide ((target, type) ∈ listeners s) then listeners s
        else listeners s ++ [(target, type)] |}).

(** [target.removeEventListener(type, handler)] *)
Definition removeEventListener (target : NodeRef) (type : string)
  : M Selected () := λ s,
  (Returned (),
   {| unitState := unitState s; observing := observing s;
      listeners := filter (λ x, x ≠ (target, type)) (listeners s) |}).

Definition set_observing (v : bool) : M Selected () := λ s,
  (Returned (),
   {| unitState := unitState s; observing := v; listeners := listeners s |}).

Fixpoint forEach {S A} (f : A → M S ()) (arr : list A) : M S () :=
  match arr with
  | [] => ret ()
  | x :: rest => f x;; forEach f rest
  end.

Definition addInputEvents (w : World) : M Selected () :=
  let* inputs := onUnit (inputs w) in
  forEach
    (λ input,
       addEventListener input "focus";;
       if isNativeInput w (Some input) then addEventListener input "input"
       else ret ())
    inputs.

Definition removeInputEvents (w : World) : M Selected () :=
  let* inputs := onUnit (inputs w) in
  forEach
    (λ input,
       removeEventListener input "focus";;
       if isNativeInput w (Some input) then removeEventListener input "input"
       else ret ())
    inputs.

Definition isElementNode (node : HTMLElement) : bool :=
  match node with
  | Element _ _ _ _ => true
  | InnerHTML _ => false
  end.

(** [el.firstElementChild] *)
Definition firstElementChild (el : HTMLElement) : option HTMLElement :=
  match el with
  | Element _ _ _ childNodes =>
      head (filter (λ node, isElementNode node = true) childNodes)
  | InnerHTML _ => None
  end.

(** [willSelect()]; [observe] of what is no node is a TypeError. *)
Definition willSelect (w : World) (b : Block) : M Selected () :=
  match firstElementChild (holder b) with
  | Some _ => set_observing true
  | None =>
      hook (Thrown (Error "Failed to execute 'observe' on 'MutationObserver': parameter 1 is not of type 'Node'."))
  end;;
  addInputEvents w.

(** [willUnselect()] *)
Definition willUnselect (w : World) : M Selected () :=
  set_observing false;;
  removeInputEvents w.

(** The listeners [addInputEvents] asks for, for a list of inputs. *)
Definition inputListeners (w : World) (inputs : list NodeRef)
  : list (NodeRef * string) :=
  inputs ≫= λ input,
    (input, "focus")
    :: (if isNativeInput w (Some input) then [(input, "input")] else []).

(** A selected unit after a run of operations of the unit: they change
    its state, not what is registered. *)
Definition afterSteps (b : Block) (steps : list (World * Operation))
    (s : Selected) : Selected :=
  {| unitState := performAll b steps (unitState s);
     observing := observing s; listeners := listeners s |}.

End Unit.

End Block.

(** * Concrete units and coordinators

    The inputs at which the properties below are exercised.  A world is a
    number; node references are numbers; tool and tune data are strings. *)

Module Scenario.
Import Block.

(** In world [0] the unit has three inputs, later only two; in world [3]
    none.  The selection is nowhere. *)
Global Instance browser : Browser nat nat := {|
  findAllInputs w :=
    match w with
    | O => [10; 11; 12]
    | 3 => []
    | _ => [10; 11]
    end%nat;
  contains _ _ _ := false;
  isNativeInput _ _ := false;
  activeElement _ := None;
  anchorNode _ := None;
  measuringStart _ := 5;
  measuringEnd _ := 7;
  generateBlockId _ := "generated";
  I18n_t key := key;
|}.

Definition boom : Exn := Error "boom".

(** A paragraph tool whose extraction fails in world [2] only; it has no
    hook beside [save] and [updated]. *)
Definition paragraph : @ToolInstance string nat := {|
  tool_render := Element "div" ["ce-paragraph"] [] [];
  tool_save w := if decide (w = 2%nat) then Thrown boom else Returned "hi";
  tool_validate := None;
  tool_merge := None;
  tool_destroy := None;
  tool_method m :=
    if decide (m = UPDATED) then Some (λ _, Returned ()) else None;
|}.

(** A tool whose [validate], [merge] and [destroy] hooks throw. *)
Definition faulty : @ToolInstance string nat := {|
  tool_render := Element "div" [] [] [];
  tool_save _ := Returned "";
  tool_validate := Some (λ _ _, Thrown boom);
  tool_merge := Some (λ _ _, Thrown boom);
  tool_destroy := Some (λ _, Thrown boom);
  tool_method _ := None;
|}.

(** A user tune that saves its alignment and wraps the content. *)
Definition align (data : option string) : @TuneInstance string nat := {|
  constructor_name := "AlignTune";
  tune_save := Some (λ _, Returned (default "left" data));
  tune_wrap :=
    Some (λ inner _, Returned (Element "div" ["align"] [] [inner]));
|}.

(** A user tune whose [save] returns in world [0] and throws later. *)
Definition anchor (data : option string) : @TuneInstance string nat := {|
  constructor_name := "AnchorTune";
  tune_save :=
    Some (λ w, if decide (w = 0%nat) then Returned "top" else Thrown boom);
  tune_wrap := None;
|}.

(** An internal tune. *)
Definition readonly (data : option string) : @TuneInstance string nat := {|
  constructor_name := "ReadOnlyTune";
  tune_save := Some (λ _, Returned "on");
  tune_wrap :=
    Some (λ inner _, Returned (Element "div" ["readonly"] [] [inner]));
|}.

Definition paragraphTool : @BlockTool string string nat := {|
  tool_name := "paragraph";
  tool_create _ _ := paragraph;
  tool_tunes :=
    [ {| tune_name := "align"; isInternal := false; tune_create := align |};
      {| tune_name := "anchor"; isInternal := false; tune_create := anchor |};
      {| tune_name := "readonly"; isInternal := true;
         tune_create := readonly |} ];
  tool_toolbox := Some {| icon := "<svg/>"; title := "Text" |};
|}.

(** Persisted data for the loaded tune [align] and for a tune [legacy]
    that is not loaded any more. *)
Definition options : @BlockConstructorOptions string string nat := {|
  opt_id := Some "b1";
  opt_data := "hi";
  opt_tool := paragraphTool;
  opt_api_blockTools := [paragraphTool];
  opt_readOnly := false;
  opt_canBeRemoved := true;
  opt_canBeEdited := true;
  opt_tunesData := {[ "align" := "left"; "legacy" := "kept" ]};
|}.

(** A state with no object yet, an empty cache and the index on the
    third input. *)
Definition state0 : @State string nat :=
  {| heap := ∅; cachedInputs := []; inputIndex := 2; trace := [] |}.

(** The unit those options describe, its store at reference [1]. *)
Definition unit1 : @Block string string nat := {|
  id := "b1";
  name := "paragraph";
  canBeRemoved := true;
  canBeEdited := true;
  toolInstance := paragraph;
  tunesInstances :=
    [("align", align (Some "left")); ("anchor", anchor None)];
  defaultTunesInstances := [("readonly", readonly None)];
  unavailableTunesData := 1%positive;
  holder := Element "div" [CSS.wrapper] [] [];
  nodes_buttons := [];
  displayedToolsCount := 0;
|}.

Definition state1 : @State string nat :=
  {| heap := {[ 1%positive := {[ "legacy" := "kept" ]} ]};
     cachedInputs := []; inputIndex := 0; trace := [] |}.



(** A batch of one record without added or removed nodes, as a change of
    text or of an attribute gives. *)
Definition textBatch : list MutationRecord :=
  [ {| addedNodes := []; removedNodes := [] |} ].

(** A coordinator among two modules, one with the hook; one loaded tool
    does not support read-only. *)
Definition modules : list Removeble.EditorModule :=
  [ {| Removeble.module_name := "UI"; Removeble.has_toggleReadOnly := true |};
    {| Removeble.module_name := "Saver";
       Removeble.has_toggleReadOnly := false |} ].

Definition blockTools : list Removeble.ToolEntry :=
  [ {| Removeble.entry_name := "paragraph";
       Removeble.isReadOnlySupported := true |};
    {| Removeble.entry_name := "X";
       Removeble.isReadOnlySupported := false |} ].

(** The coordinator after [prepare] with [readOnly: false]. *)
Definition prepared : Removeble.State :=
  (Removeble.prepare modules blockTools false Removeble.initial).1.2.

End Scenario.

(** * Further concrete coordinators *)

Module MoreScenarios.
Import Block.

(** Tools that all support read-only. *)
Definition supportedTools : list Removeble.ToolEntry :=
  [ {| Removeble.entry_name := "paragraph";
       Removeble.isReadOnlySupported := true |};
    {| Removeble.entry_name := "header";
       Removeble.isReadOnlySupported := true |} ].

(** The coordinator after [prepare] with [readOnly: true] over them. *)
Definition preparedReadOnly : Removeble.State :=
  (Removeble.prepare Scenario.modules supportedTools true
     Removeble.initial).1.2.

(** A unit whose cache holds its three inputs, the first being current. *)
Definition cachedState : @State string nat :=
  {| heap := ∅; cachedInputs := [10; 11; 12]%nat; inputIndex := 0;
     trace := [] |}.

(** The user tune [anchor] of the paragraph tool. *)
Definition anchorTune : @BlockTune string nat :=
  {| tune_name := "anchor"; isInternal := false;
     tune_create := Scenario.anchor |}.

(** Persisted data under the name of the loaded user tune [anchor]. *)
Definition optionsAnchor : @BlockConstructorOptions string string nat := {|
  opt_id := None;
  opt_data := "hi";
  opt_tool := Scenario.paragraphTool;
  opt_api_blockTools := [Scenario.paragraphTool];
  opt_readOnly := false;
  opt_canBeRemoved := true;
  opt_canBeEdited := true;
  opt_tunesData := {[ "anchor" := "stored" ]};
|}.

(** A focus in world [1], where the unit has two inputs. *)
Definition focusLater : list (nat * @Operation string nat) :=
  [(1%nat, HandleFocus)].

(** A tool whose [updated] method throws [null]. *)
Definition nullThrower : @ToolInstance string nat := {|
  tool_render := Element "div" [] [] [];
  tool_save _ := Returned "";
  tool_validate := None;
  tool_merge := None;
  tool_destroy := None;
  tool_method m :=
    if decide (m = UPDATED) then Some (λ _, Thrown Null) else None;
|}.

End MoreScenarios.

(** * Properties *)

(** ** Strings *)

Lemma append_cons ch (a b : string) : String ch a +:+ b = String ch (a +:+ b).
Proof. reflexivity. Qed.

Lemma append_assoc (a b c : string) : (a +:+ b) +:+ c = a +:+ (b +:+ c).
Proof.
  induction a as [|ch a IH]; [done|]. by rewrite !append_cons, IH.
Qed.

Lemma append_empty_r (a : string) : a +:+ "" = a.
Proof.
  induction a as [|ch a IH]; [done|]. by rewrite append_cons, IH.
Qed.

Lemma occurs_in_refl s : occurs_in s s.
Proof. exists "", "". simpl. by rewrite append_empty_r. Qed.

Lemma occurs_in_append_l t s pre : occurs_in t s → occurs_in t (pre +:+ s).
Proof.
  intros (p & q & ->). exists (pre +:+ p), q. by rewrite append_assoc.
Qed.

Lemma occurs_in_append_r t s post : occurs_in t s → occurs_in t (s +:+ post).
Proof.
  intros (p & q & ->). exists p, (q +:+ post). by rewrite !append_assoc.
Qed.

(** [Array.prototype.join]. *)
Lemma occurs_in_join sep (names : list string) name :
  name ∈ names → occurs_in name (String.concat sep names).
Proof.
  induction names as [|x xs IH]; intros Hin.
  - by apply elem_of_nil in Hin.
  - apply elem_of_cons in Hin as [->|Hin].
    + destruct xs as [|y ys]; simpl.
      * apply occurs_in_refl.
      * apply occurs_in_append_r, occurs_in_refl.
    + destruct xs as [|y ys].
      * by apply elem_of_nil in Hin.
      * change (String.concat sep (x :: y :: ys))
          with (x +:+ sep +:+ String.concat sep (y :: ys)).
        by apply occurs_in_append_l, occurs_in_append_l, IH.
Qed.

(** ** Sequencing *)

Lemma bind_assoc {S A B C} (m : M S A) (f : A → M S B) (g : B → M S C) st :
  (let* b := (let* a := m in f a) in g b) st
  = (let* a := m in let* b := f a in g b) st.
Proof. unfold bind. by destruct (m st) as [[a|e] st1]. Qed.

Lemma bind_ext {S A B} (m : M S A) (f g : A → M S B) st :
  (∀ a st1, f a st1 = g a st1) →
  (let* a := m in f a) st = (let* a := m in g a) st.
Proof. intros Heq. unfold bind. by destruct (m st) as [[a|e] st1]. Qed.

(** ** The read-only coordinator *)

Section RemovebleProperties.
Import Removeble.
Implicit Types (Editor : list EditorModule) (blockTools : list ToolEntry).
Implicit Types (st : State) (arg : option bool).

Lemma state_eta st :
  {| toolsDontSupportReadOnly := toolsDontSupportReadOnly st;
     removebleEnabled := removebleEnabled st |} = st.
Proof. by destruct st. Qed.

Lemma length_pos_nonempty {A} (l : list A) :
  (0 <? Z.of_nat (length l)) = true ↔ l ≠ [].
Proof.
  rewrite Z.ltb_lt. destruct l; simpl; [|split; [done | lia]].
  split; [lia | done].
Qed.

(** The loop calls the hook of exactly the modules that have one, once
    each, in the order of the enumeration. *)
Lemma callToggleReadOnly_filter Editor state :
  callToggleReadOnly Editor state =
  (λ m, ToggleReadOnly (module_name m) state)
    <$> filter (λ m, has_toggleReadOnly m = true) Editor.
Proof.
  induction Editor as [|m rest IH]; [done|].
  simpl. rewrite filter_cons.
  destruct (has_toggleReadOnly m); simpl; by rewrite IH.
Qed.

Lemma callToggleReadOnly_no_reload Editor state fx :
  fx ∈ callToggleReadOnly Editor state → fx ∉ reload.
Proof.
  rewrite callToggleReadOnly_filter. intros (m & -> & _)%list_elem_of_fmap.
  unfold reload. rewrite !not_elem_of_cons, elem_of_nil. naive_solver.
Qed.

(** [toggle] leaves the list of unsupported tools alone. *)
Lemma toggle_keeps_tools Editor arg st r st' fx :
  toggle Editor arg st = (r, st', fx) →
  toolsDontSupportReadOnly st' = toolsDontSupportReadOnly st.
Proof.
  unfold toggle. repeat case_match; intros [= <- <- <-]; done.
Qed.

(** [toggle] keeps the invariant: enabled only if every tool supports
    read-only. *)
Lemma toggle_keeps_invariant Editor arg st r st' fx :
  (removebleEnabled st = true → toolsDontSupportReadOnly st = []) →
  toggle Editor arg st = (r, st', fx) →
  removebleEnabled st' = true → toolsDontSupportReadOnly st' = [].
Proof.
  intros Hinv. unfold toggle.
  destruct (default _ arg && _) eqn:Hguard.
  - intros [= <- <- <-]. done.
  - intros Heq Hen.
    assert (removebleEnabled st' = default (negb (removebleEnabled st)) arg
            ∧ toolsDontSupportReadOnly st' = toolsDontSupportReadOnly st)
      as [He Ht] by (case_match; by simplify_eq).
    rewrite Ht. rewrite He in Hen. rewrite Hen in Hguard. simpl in Hguard.
    destruct (toolsDontSupportReadOnly st) eqn:E; [done|].
    exfalso. apply Z.ltb_ge in Hguard. simpl in Hguard. lia.
Qed.

(** The invariant of the data model: read-only is never enabled while a
    loaded tool lacks support. *)
Lemma reachable_invariant Editor blockTools st :
  reachable Editor blockTools st →
  removebleEnabled st = true → toolsDontSupportReadOnly st = [].
Proof.
  induction 1 as [readOnly st fx Hprep | arg st r st' fx _ IH Htog].
  - unfold prepare in Hprep.
    destruct (readOnly && _) eqn:Hguard; [done|].
    destruct (toggle _ _ _) as [[r st2] fx2] eqn:Htog.
    injection Hprep as <- <-.
    eapply toggle_keeps_invariant; [|exact Htog]. done.
  - by eapply toggle_keeps_invariant.
Qed.

(** C4: a call of [toggle] whose target is "enabled", made while some
    tool does not support read-only, throws the critical error; the
    message names every such tool, nothing is called and the state, so
    [isEnabled], is what it was. *)
Theorem toggle_enable_unsupported_fails Editor arg st :
  default (negb (removebleEnabled st)) arg = true →
  toolsDontSupportReadOnly st ≠ [] →
  ∃ message, toggle Editor arg st = (Thrown (Error message), st, [])
       ∧ isEnabled (toggle Editor arg st).1.2 = isEnabled st
       ∧ ∀ name, name ∈ toolsDontSupportReadOnly st →
                 occurs_in name message.
Proof.
  intros Htarget Htools.
  exists (criticalMessage st).
  assert (toggle Editor arg st
          = (Thrown (Error (criticalMessage st)), st, [])) as Heq.
  { unfold toggle. rewrite Htarget. simpl.
    by apply length_pos_nonempty in Htools as ->. }
  split; [exact Heq|]. split; [by rewrite Heq|].
  intros name Hin. simpl. unfold criticalMessage.
  by apply occurs_in_append_l, occurs_in_append_r, occurs_in_join.
Qed.

(** C2, as amended: [toggle(s)] in a state that already is [s] makes no
    save, clear or render call and returns [s] with the state unchanged;
    it does call [toggleReadOnly(s)] on every module that has the hook,
    once each. *)
Theorem toggle_same_state Editor blockTools st :
  reachable Editor blockTools st →
  let s := removebleEnabled st in
  toggle Editor (Some s) st
    = (Returned s, st,
       (λ m, ToggleReadOnly (module_name m) s)
         <$> filter (λ m, has_toggleReadOnly m = true) Editor)
  ∧ ∀ fx, fx ∈ (toggle Editor (Some s) st).2 → fx ∉ reload.
Proof.
  intros Hreach s.
  assert (toggle Editor (Some s) st
          = (Returned s, st, callToggleReadOnly Editor s)) as Heq.
  { unfold toggle. simpl. fold s.
    assert (s && (0 <? Z.of_nat (length (toolsDontSupportReadOnly st)))
            = false) as ->.
    { destruct s eqn:Hs; [|done].
      by rewrite (reachable_invariant _ _ _ Hreach Hs). }
    rewrite bool_decide_eq_true_2 by done. simpl.
    by rewrite state_eta. }
  split.
  - by rewrite Heq, callToggleReadOnly_filter.
  - rewrite Heq. simpl. apply callToggleReadOnly_no_reload.
Qed.

End RemovebleProperties.

(** ** The editable unit: inputs *)

Section InputProperties.
Import Block.
Context {BlockTuneData World NodeRef : Type} `{!Browser World NodeRef}.
Implicit Types (w : World) (st : @State BlockTuneData NodeRef).

Lemma js_index_last {A} (arr : list A) :
  js_index arr (Z.of_nat (length arr) - 1) = last arr.
Proof.
  unfold js_index. rewrite last_lookup.
  destruct arr as [|x arr]; [done|].
  simpl length. destruct (_ <? 0) eqn:Hneg; [apply Z.ltb_lt in Hneg; lia|].
  f_equal. lia.
Qed.

Lemma js_index_elem_of {A} (arr : list A) i x :
  js_index arr i = Some x → x ∈ arr.
Proof.
  unfold js_index. case_match; [done|]. apply list_elem_of_lookup_2.
Qed.

(** The getter with a filled cache: the cache, and nothing changes. *)
Lemma inputs_cached w st :
  cachedInputs st ≠ [] → inputs w st = (Returned (cachedInputs st), st).
Proof.
  intros Hne. unfold inputs, bind, get_cachedInputs, ret. simpl.
  destruct (cachedInputs st); done.
Qed.

(** The getter with an empty cache: the inputs of the live document,
    cached, the index cut down to the last position. *)
Lemma inputs_recomputed w st :
  cachedInputs st = [] →
  inputs w st =
    (Returned (findAllInputs w),
     {| heap := heap st;
        cachedInputs := findAllInputs w;
        inputIndex :=
          Z.min (inputIndex st) (Z.of_nat (length (findAllInputs w)) - 1);
        trace := trace st |}).
Proof.
  intros Hnil.
  unfold inputs, bind, get_cachedInputs, get_inputIndex, set_inputIndex,
    set_cachedInputs, ret.
  simpl. rewrite Hnil. simpl.
  destruct (inputIndex st >? _) eqn:Hgt; simpl; do 3 f_equal.
  - apply Z.gtb_lt in Hgt. lia.
  - rewrite Z.gtb_ltb in Hgt. apply Z.ltb_ge in Hgt. lia.
Qed.

(** Reading [currentInput] never throws, and what it yields is
    [undefined] or a member of the list the unit holds afterwards. *)
Lemma currentInput_safe w st :
  ∃ r st', currentInput w st = (Returned r, st')
           ∧ ∀ x, r = Some x → x ∈ cachedInputs st'.
Proof.
  unfold currentInput, bind, get_inputIndex, ret.
  destruct (cachedInputs st) as [|c cs] eqn:Hc.
  - rewrite (inputs_recomputed _ _ Hc). eexists _, _. split; [done|].
    simpl. apply js_index_elem_of.
  - rewrite inputs_cached by (by rewrite Hc). eexists _, _. split; [done|].
    apply js_index_elem_of.
Qed.

(** C8: reading [currentInput] never throws, and what it returns is
    [undefined] or a member of the list the unit holds.  When the list is
    recomputed and has become too short for the tracked index, the index is
    cut down to the last position of the new list and [currentInput]
    returns the last input of that list. *)
Theorem currentInput_after_shrink w st :
  (∃ r st', currentInput w st = (Returned r, st')
            ∧ ∀ x, r = Some x → x ∈ cachedInputs st')
  ∧ (cachedInputs st = [] →
     inputIndex st > Z.of_nat (length (findAllInputs w)) - 1 →
     ∃ st', currentInput w st = (Returned (last (findAllInputs w)), st')
            ∧ cachedInputs st' = findAllInputs w
            ∧ inputIndex st' = Z.of_nat (length (findAllInputs w)) - 1
            ∧ (findAllInputs w ≠ [] → is_Some (last (findAllInputs w)))
            ∧ ∀ x, last (findAllInputs w) = Some x → x ∈ findAllInputs w).
Proof.
  split; [apply currentInput_safe|].
  intros Hnil Hshrunk.
  unfold currentInput, bind, get_inputIndex, ret.
  rewrite (inputs_recomputed _ _ Hnil). simpl.
  rewrite Z.min_r by lia. rewrite js_index_last.
  eexists. repeat split; try done.
  - intros Hne. destruct (findAllInputs w) as [|x l] eqn:E; [done|].
    rewrite last_lookup. apply lookup_lt_is_Some_2. simpl. lia.
  - intros x Hx. rewrite last_lookup in Hx.
    by eapply list_elem_of_lookup_2.
Qed.

End InputProperties.

(** ** The editable unit: mutations *)

Section MutationProperties.
Import Block.
Context {BlockToolData BlockTuneData World NodeRef : Type}.
Context `{!Browser World NodeRef}.
Implicit Types (w : World) (st : @State BlockTuneData NodeRef).
Implicit Types (toolInstance : @ToolInstance BlockToolData World).



(** [call] touches only the trace, where the call of the method, when
    there is one, is recorded beside what is logged; it throws when the
    method throws [null] or [undefined], and only then. *)
Lemma call_spec w toolInstance methodName st :
  ∃ c evs, call w toolInstance methodName st
           = (c,
              {| heap := heap st; cachedInputs := cachedInputs st;
                 inputIndex := inputIndex st; trace := trace st ++ evs |})
           ∧ (is_Some (tool_method toolInstance methodName) →
              ToolMethod methodName ∈ evs)
           ∧ (tool_method toolInstance methodName = None → evs = [])
           ∧ (∀ eventName, Emit eventName ∉ evs)
           ∧ if throwsNullish w toolInstance methodName
             then ∃ e, c = Thrown e
             else c = Returned ().
Proof.
  unfold call, throwsNullish.
  destruct (tool_method toolInstance methodName) as [m|].
  - unfold bind, try_catch, log, record, hook, ret, readMessage.
    destruct (bool_decide _); simpl; destruct (m w) as [[]|[msg| |]]; simpl;
      eexists _, _; (split; [by rewrite <- ?app_assoc|]);
      (split; [intros _; simpl; rewrite !elem_of_cons; tauto|]);
      (split; [done|]);
      (split; [|by eauto]);
      intros eventName Hin; simpl in Hin;
      repeat (apply elem_of_cons in Hin as [Hin|Hin]; [discriminate Hin|]);
      by apply elem_of_nil in Hin.
  - exists (Returned ()), []. unfold ret. rewrite app_nil_r.
    destruct st. repeat split; try done.
    intros eventName. apply not_elem_of_nil.
Qed.

(** [updateCurrentInput] on an empty cache. *)
Lemma updateCurrentInput_recomputed w st :
  cachedInputs st = [] →
  updateCurrentInput w st
  = (Returned (),
     {| heap := heap st; cachedInputs := findAllInputs w;
        inputIndex := resolvedIndex w (inputIndex st);
        trace := trace st |}).
Proof.
  intros Hnil. unfold updateCurrentInput, set_currentInput, bind.
  rewrite (inputs_recomputed _ _ Hnil). unfold resolvedIndex.
  destruct (findIndex _ _ _ =? -1); done.
Qed.


End MutationProperties.

(** ** The editable unit: saving *)

Section SaveProperties.
Import Block.
Context {BlockToolData BlockTuneData World NodeRef : Type}.
Context `{!Browser World NodeRef}.
Implicit Types (w : World) (st : @State BlockTuneData NodeRef).
Implicit Types (b : @Block BlockToolData BlockTuneData World).
Implicit Types (tune : @TuneInstance BlockTuneData World).
Implicit Types (entries : list (string * @TuneInstance BlockTuneData World)).
Implicit Types (obj : gmap string BlockTuneData) (l : loc).

Lemma deref_insert h l obj : deref (<[l := obj]> h) l = obj.
Proof. unfold deref. by rewrite lookup_insert_eq. Qed.

(** *** The loop over the tunes *)

Lemma mergePayloads_cons w obj name tune entries :
  mergePayloads w obj ((name, tune) :: entries)
  = mergePayloads w
      (match tunePayload w tune with
       | Some data => <[name := data]> obj
       | None => obj
       end) entries.
Proof. done. Qed.

(** The loop never throws: it writes the payloads into the object behind
    [l], logs a warning for each hook that threw, and touches nothing
    else. *)
Lemma saveTunes_spec w l entries st :
  ∃ st', saveTunes w l entries st = (Returned (), st')
         ∧ deref (heap st') l = mergePayloads w (deref (heap st) l) entries
         ∧ (∀ l', l' ≠ l → heap st' !! l' = heap st !! l')
         ∧ cachedInputs st' = cachedInputs st
         ∧ inputIndex st' = inputIndex st
         ∧ trace st' = trace st ++ saveWarnings w entries.
Proof.
  revert st. induction entries as [|[name tune] entries IH]; intros st.
  - exists st. simpl. by rewrite app_nil_r.
  - rewrite mergePayloads_cons. simpl saveTunes. unfold bind at 1.
    unfold tunePayload, saveWarnings. simpl omap.
    destruct (tune_save tune) as [f|]; simpl.
    + unfold try_catch, bind, hook.
      destruct (f w) as [data|e]; simpl.
      * edestruct IH as (st' & -> & Hobj & Hother & Hc & Hi & Ht).
        exists st'. split; [done|]. simpl in *.
        rewrite deref_insert in Hobj. repeat split; try done.
        intros l' Hne. rewrite Hother by done. by rewrite lookup_insert_ne.
      * edestruct IH as (st' & -> & Hobj & Hother & Hc & Hi & Ht).
        exists st'. split; [done|]. simpl in *.
        repeat split; try done. by rewrite Ht, <- app_assoc.
    + edestruct IH as (st' & -> & Hobj & Hother & Hc & Hi & Ht).
      exists st'. by repeat split.
Qed.

(** A name no tune has is left as it was. *)
Lemma mergePayloads_other w obj entries name :
  name ∉ entries.*1 → mergePayloads w obj entries !! name = obj !! name.
Proof.
  revert obj. induction entries as [|[n t] entries IH]; intros obj Hnot.
  - done.
  - rewrite mergePayloads_cons. rewrite fmap_cons, not_elem_of_cons in Hnot.
    destruct Hnot as [Hne Hnot]. rewrite IH by done.
    destruct (tunePayload w t); [|done]. by rewrite lookup_insert_ne.
Qed.

(** The payload of a tune whose hook returned is in the object. *)
Lemma mergePayloads_written w obj entries name tune data :
  NoDup entries.*1 → (name, tune) ∈ entries →
  tunePayload w tune = Some data →
  mergePayloads w obj entries !! name = Some data.
Proof.
  revert obj. induction entries as [|[n t] entries IH];
    intros obj Hnd Hin Hpay.
  - by apply elem_of_nil in Hin.
  - rewrite mergePayloads_cons. rewrite fmap_cons in Hnd.
    apply NoDup_cons in Hnd as [Hfresh Hnd].
    apply elem_of_cons in Hin as [[= -> ->]|Hin].
    + rewrite mergePayloads_other by done. rewrite Hpay.
      by rewrite lookup_insert_eq.
    + by apply IH.
Qed.

(** A tune without hook, or whose hook threw, leaves its name as it
    was. *)
Lemma mergePayloads_omitted w obj entries name tune :
  NoDup entries.*1 → (name, tune) ∈ entries →
  tunePayload w tune = None →
  mergePayloads w obj entries !! name = obj !! name.
Proof.
  revert obj. induction entries as [|[n t] entries IH];
    intros obj Hnd Hin Hpay.
  - by apply elem_of_nil in Hin.
  - rewrite mergePayloads_cons. rewrite fmap_cons in Hnd.
    apply NoDup_cons in Hnd as [Hfresh Hnd].
    apply elem_of_cons in Hin as [[= -> ->]|Hin].
    + rewrite mergePayloads_other by done. by rewrite Hpay.
    + rewrite IH by done.
      destruct (tunePayload w t); [|done].
      rewrite lookup_insert_ne; [done|].
      intros ->. apply Hfresh, list_elem_of_fmap. by exists (name, tune).
Qed.

Lemma saveWarnings_elem_of w entries name tune f e :
  (name, tune) ∈ entries → tune_save tune = Some f → f w = Thrown e →
  saveWarning tune e ∈ saveWarnings w entries.
Proof.
  intros Hin Hf He. unfold saveWarnings. apply list_elem_of_omap.
  exists (name, tune). split; [done|]. simpl. by rewrite Hf, He.
Qed.

(** *** [save] *)

(** The tool's extraction fails: [save] fails with the same error before
    it has done anything; nothing is logged. *)
Lemma save_tool_throws w b st e :
  tool_save (toolInstance b) w = Thrown e → save w b st = (Thrown e, st).
Proof. intros He. unfold save, bind, hook. by rewrite He. Qed.

(** The tool's extraction succeeds: [save] returns the record, whose
    [tunes] is the reference held by the unit. *)
Lemma save_tool_returns w b st data :
  tool_save (toolInstance b) w = Returned data →
  ∃ st', save w b st
         = (Returned (Some {| saved_id := id b;
                             saved_tool := name b;
                             saved_data := data;
                             saved_tunes := unavailableTunesData b;
                             saved_time :=
                               measuringEnd w - measuringStart w |}), st')
         ∧ saveTunes w (unavailableTunesData b) (tuneEntries b) st
           = (Returned (), st').
Proof.
  intros Hd. unfold save, bind at 1, hook. rewrite Hd. unfold bind at 1.
  edestruct (saveTunes_spec w (unavailableTunesData b) (tuneEntries b) st)
    as (st' & Heq & _).
  unfold tuneEntries in Heq. rewrite Heq. by exists st'.
Qed.

End SaveProperties.

(** ** The editable unit: composition *)

Section ComposeProperties.
Import Block.
Context {BlockToolData BlockTuneData World NodeRef : Type}.
Context `{!Browser World NodeRef}.
Implicit Types (w : World) (st : @State BlockTuneData NodeRef).
Implicit Types (tune : @TuneInstance BlockTuneData World).
Implicit Types (tunes : list (@TuneInstance BlockTuneData World)).
Implicit Types (toolInstance : @ToolInstance BlockToolData World).
Implicit Types (tool : @BlockTool BlockToolData BlockTuneData World).
Implicit Types (tools : list (@BlockTool BlockToolData BlockTuneData World)).

Lemma sameButTrace_refl st : sameButTrace st st.
Proof. done. Qed.

Lemma sameButTrace_trans st1 st2 st3 :
  sameButTrace st1 st2 → sameButTrace st2 st3 → sameButTrace st1 st3.
Proof. unfold sameButTrace. intros (-> & -> & ->) (-> & -> & ->). done. Qed.

Lemma sameButTrace_record st ev : sameButTrace st (record ev st).2.
Proof. done. Qed.

(** The loop of [compose] over the tunes is the left fold of [wrapStep]:
    it never throws and changes the trace only. *)
Lemma wrapTunes_spec w tunes node st :
  ∃ st', wrapTunes w tunes node st
         = (Returned (foldl (wrapStep w) node tunes), st')
         ∧ sameButTrace st st'.
Proof.
  revert node st. induction tunes as [|tune tunes IH]; intros node st.
  - by exists st.
  - simpl. unfold bind at 1, wrapStep at 2.
    destruct (tune_wrap tune) as [f|].
    + unfold try_catch, hook.
      destruct (f node w) as [outer|e].
      * apply IH.
      * unfold bind at 1, log. simpl.
        edestruct IH as (st' & -> & Hsame). exists st'. split; [done|].
        eapply sameButTrace_trans; [|exact Hsame]. apply sameButTrace_record.
    + apply IH.
Qed.

Lemma addTool_spec tool acc st :
  ∃ acc' st', addTool tool acc st = (Returned acc', st')
              ∧ sameButTrace st st'.
Proof.
  unfold addTool. destruct (tool_toolbox tool) as [tb|].
  - destruct (bool_decide _).
    + eexists _, _. split; [done|]. apply sameButTrace_record.
    + by eexists _, _.
  - by eexists _, _.
Qed.

Lemma addTools_spec tools acc st :
  ∃ acc' st', addTools tools acc st = (Returned acc', st')
              ∧ sameButTrace st st'.
Proof.
  revert acc st. induction tools as [|tool tools IH]; intros acc st.
  - by eexists _, _.
  - simpl. unfold bind.
    destruct (addTool_spec tool acc st) as (acc1 & st1 & -> & Hs1).
    destruct (IH acc1 st1) as (acc2 & st2 & -> & Hs2).
    eexists _, _. split; [done|]. by eapply sameButTrace_trans.
Qed.

(** [compose] never throws: the holder is the wrapper element with two
    children, the left fold of the tunes over the content node, and the
    [add] control. *)
Lemma compose_spec w toolInstance
    (user internal : list (string * @TuneInstance BlockTuneData World))
    tools st :
  ∃ add buttons count st',
    compose w toolInstance user internal tools st
    = (Returned
         (Element "div" [CSS.wrapper] []
            [foldl (wrapStep w) (contentNodeOf (tool_render toolInstance))
               (user.*2 ++ internal.*2);
             add],
          buttons, count), st')
    ∧ sameButTrace st st'.
Proof.
  unfold compose. unfold bind at 1.
  destruct (addTools_spec tools (make "div" CSS.toolbox, [], 0) st)
    as (acc & st1 & -> & Hs1).
  unfold bind at 1.
  destruct (wrapTunes_spec w (user.*2 ++ internal.*2)
              (contentNodeOf (tool_render toolInstance)) st1)
    as (st2 & -> & Hs2).
  eexists _, _, _, st2. split; [done|]. by eapply sameButTrace_trans.
Qed.

(** The fold nests: the wrapper of the last tune is outermost. *)
Lemma wrapFold_nested w tunes (outers : list (HTMLElement → HTMLElement))
    node :
  Forall2 (wrapsAs w) tunes outers →
  foldl (wrapStep w) node tunes
  = foldr (λ outer inner, outer inner) node (rev outers).
Proof.
  intros Hall. revert node.
  induction Hall as [|tune outer tunes outers Hw _ IH]; intros node.
  - done.
  - simpl. rewrite foldr_app. simpl. rewrite IH. f_equal.
    unfold wrapStep, wrapsAs in *.
    destruct (tune_wrap tune) as [f|]; by rewrite Hw.
Qed.

(** C9: the container is composed by a left fold of the [wrap] hooks over
    the user tunes followed by the internal tunes, starting from the
    content node; a tune without [wrap] adds nothing; when every tune
    wraps what it is given, the wrapper of the first tune is innermost,
    that of the last outermost, whatever else [compose] does. *)
Theorem compose_is_left_fold w toolInstance
    (user internal : list (string * @TuneInstance BlockTuneData World))
    tools st :
  ∃ add buttons count st',
    compose w toolInstance user internal tools st
    = (Returned
         (Element "div" [CSS.wrapper] []
            [foldl (wrapStep w) (contentNodeOf (tool_render toolInstance))
               (user.*2 ++ internal.*2);
             add],
          buttons, count), st')
    ∧ (∀ node tune, tune_wrap tune = None → wrapStep w node tune = node)
    ∧ (∀ node tune f outer,
         tune_wrap tune = Some f → f node w = Returned outer →
         wrapStep w node tune = outer)
    ∧ ∀ outers,
        Forall2 (wrapsAs w) (user.*2 ++ internal.*2) outers →
        foldl (wrapStep w) (contentNodeOf (tool_render toolInstance))
          (user.*2 ++ internal.*2)
        = foldr (λ outer inner, outer inner)
            (contentNodeOf (tool_render toolInstance)) (rev outers).
Proof.
  destruct (compose_spec w toolInstance user internal tools st)
    as (add & buttons & count & st' & Heq & _).
  exists add, buttons, count, st'. split; [exact Heq|].
  split; [|split].
  - intros node tune Hnone. unfold wrapStep. by rewrite Hnone.
  - intros node tune f outer Hf Hout. unfold wrapStep. by rewrite Hf, Hout.
  - intros outers. apply wrapFold_nested.
Qed.

End ComposeProperties.

(** ** The editable unit: construction *)

Section ConstructionProperties.
Import Block.
Context {BlockToolData BlockTuneData World NodeRef : Type}.
Context `{!Browser World NodeRef}.
Implicit Types (w : World) (st : @State BlockTuneData NodeRef).
Implicit Types (b : @Block BlockToolData BlockTuneData World).
Implicit Types (tunes : list (@BlockTune BlockTuneData World)).
Implicit Types (user internal : list (string * @TuneInstance BlockTuneData World)).
Implicit Types (options : @BlockConstructorOptions BlockToolData BlockTuneData World).
Implicit Types (l : loc).

Lemma Map_set_keys {V} (k k' : string) (v : V) (m : list (string * V)) :
  k' ∈ (Map_set k v m).*1 ↔ k' = k ∨ k' ∈ m.*1.
Proof.
  induction m as [|[k0 v0] m IH]; simpl.
  - rewrite list_elem_of_singleton, elem_of_nil. tauto.
  - case_decide as Hk; simpl; rewrite !elem_of_cons.
    + subst k0. tauto.
    + rewrite IH. tauto.
Qed.

(** Every instance is that of a tune of the tool (or was there before). *)
Lemma instantiateTunes_keys tunes tunesData user internal name :
  name ∈ (instantiateTunes tunes tunesData (user, internal)).1.*1
         ++ (instantiateTunes tunes tunesData (user, internal)).2.*1 →
  name ∈ (tune_name <$> tunes) ∨ name ∈ user.*1 ++ internal.*1.
Proof.
  revert user internal.
  induction tunes as [|tune tunes IH]; intros user internal; simpl.
  - by right.
  - intros Hin. rewrite elem_of_cons.
    destruct (isInternal tune); simpl in Hin; apply IH in Hin;
      rewrite !elem_of_app in *; rewrite Map_set_keys in Hin; tauto.
Qed.

(** [set] with a new key puts the entry last. *)
Lemma Map_set_fresh {V} (k : string) (v : V) (m : list (string * V)) :
  k ∉ m.*1 → Map_set k v m = m ++ [(k, v)].
Proof.
  induction m as [|[k0 v0] m IH]; simpl; [done|].
  intros [Hne Hnot]%not_elem_of_cons.
  case_decide; [congruence|]. by rewrite IH.
Qed.

(** The tunes of a tool have distinct names (they come from a [Map] keyed
    by name): so have the instances, user and internal ones together. *)
Lemma instantiateTunes_NoDup tunes tunesData user internal :
  NoDup (user.*1 ++ internal.*1) →
  NoDup (tune_name <$> tunes) →
  (∀ n, n ∈ tune_name <$> tunes → n ∉ user.*1 ++ internal.*1) →
  NoDup ((instantiateTunes tunes tunesData (user, internal)).1.*1
         ++ (instantiateTunes tunes tunesData (user, internal)).2.*1).
Proof.
  revert user internal.
  induction tunes as [|tune tunes IH]; intros user internal Hnd Htunes Hnew.
  - done.
  - rewrite fmap_cons in Htunes. apply NoDup_cons in Htunes as [Hhead Htunes].
    assert (tune_name tune ∉ user.*1 ++ internal.*1) as Hfresh.
    { apply Hnew. rewrite fmap_cons. by left. }
    rewrite not_elem_of_app in Hfresh. destruct Hfresh as [Hu Hi].
    simpl. destruct (isInternal tune); simpl.
    + rewrite (Map_set_fresh _ _ _ Hi). apply IH; [|done|].
      * rewrite fmap_app. simpl. rewrite app_assoc.
        apply NoDup_app. split; [done|]. split; [|apply NoDup_singleton].
        intros n Hn ->%list_elem_of_singleton.
        rewrite elem_of_app in Hn. tauto.
      * intros n Hn. rewrite fmap_app. simpl. rewrite app_assoc.
        rewrite not_elem_of_app, list_elem_of_singleton. split.
        -- apply Hnew. rewrite fmap_cons. by right.
        -- intros ->. done.
    + rewrite (Map_set_fresh _ _ _ Hu). apply IH; [|done|].
      * rewrite fmap_app. simpl. rewrite <- app_assoc. simpl.
        apply NoDup_app in Hnd as (Hndu & Hdisj & Hndi).
        apply NoDup_app. split; [done|]. split.
        -- intros n Hn [->|Hin]%elem_of_cons; [done|]. by eapply Hdisj.
        -- by apply NoDup_cons.
      * intros n Hn. rewrite fmap_app. simpl. rewrite <- app_assoc. simpl.
        assert (n ∉ user.*1 ++ internal.*1) as Hold.
        { apply Hnew. rewrite fmap_cons. by right. }
        rewrite not_elem_of_app in Hold.
        rewrite not_elem_of_app, not_elem_of_cons.
        split; [tauto|]. split; [|tauto]. intros ->. done.
Qed.

(** The second loop of [composeTunes]: it never throws; names outside the
    entries are left alone, and the data of every entry that no user tune
    answers to is in the object. *)
Lemma retainUnavailable_spec (entries : list (string * BlockTuneData))
    user l st :
  ∃ st', retainUnavailable entries user l st = (Returned (), st')
         ∧ cachedInputs st' = cachedInputs st
         ∧ inputIndex st' = inputIndex st
         ∧ trace st' = trace st
         ∧ (∀ name, name ∉ entries.*1 →
                    deref (heap st') l !! name = deref (heap st) l !! name)
         ∧ (NoDup entries.*1 →
            ∀ name data, (name, data) ∈ entries →
                         Map_has name user = false →
                         deref (heap st') l !! name = Some data).
Proof.
  revert st. induction entries as [|[n d] entries IH]; intros st.
  - exists st. repeat split; try done. intros _ ?? []%elem_of_nil.
  - simpl. unfold bind at 1.
    destruct (Map_has n user) eqn:Hhas; simpl.
    + edestruct IH as (st' & -> & Hc & Hi & Ht & Hframe & Hkept).
      exists st'. repeat split; try done.
      * intros name [_ Hnot]%not_elem_of_cons. by apply Hframe.
      * intros [_ Hnd]%NoDup_cons name data Hin Hfree.
        apply elem_of_cons in Hin as [[= -> ->]|Hin]; [congruence|].
        by apply Hkept.
    + edestruct IH as (st' & -> & Hc & Hi & Ht & Hframe & Hkept).
      exists st'. simpl in *. repeat split; try done.
      * intros name [Hne Hnot]%not_elem_of_cons.
        rewrite Hframe by done. unfold deref at 1.
        rewrite lookup_insert_eq. simpl. by rewrite lookup_insert_ne.
      * intros [Hfresh Hnd]%NoDup_cons name data Hin Hfree.
        apply elem_of_cons in Hin as [[= -> ->]|Hin]; [|by apply Hkept].
        rewrite Hframe by done. unfold deref at 1.
        rewrite lookup_insert_eq. simpl. by rewrite lookup_insert_eq.
Qed.

(** The constructor never throws.  The unit has the instances of the
    tunes of the tool, and the persisted data of every name that no user
    tune answers to is in its store of unavailable data. *)
Lemma new_spec w options st :
  ∃ b st1,
    new w options st = (Returned b, st1)
    ∧ toolInstance b
      = tool_create (opt_tool options) (opt_data options)
          (opt_readOnly options)
    ∧ (tunesInstances b, defaultTunesInstances b)
      = instantiateTunes (tool_tunes (opt_tool options))
          (opt_tunesData options) ([], [])
    ∧ cachedInputs st1 = [] ∧ inputIndex st1 = 0
    ∧ heap st !! unavailableTunesData b = None
    ∧ ∀ name data,
        opt_tunesData options !! name = Some data →
        Map_has name (tunesInstances b) = false →
        deref (heap st1) (unavailableTunesData b) !! name = Some data.
Proof.
  unfold new. unfold bind at 1. unfold set_cachedInputs at 1.
  unfold bind at 1. unfold alloc at 1. simpl.
  unfold bind at 1. unfold set_inputIndex at 1. simpl.
  set (l := fresh (dom (heap st))).
  unfold bind at 1, composeTunes.
  set (maps := instantiateTunes _ _ _).
  unfold bind at 1.
  edestruct (retainUnavailable_spec (map_to_list (opt_tunesData options))
               maps.1 l) as (st1 & -> & Hc & Hi & Ht & _ & Hkept).
  unfold ret at 1. unfold bind at 1.
  edestruct (compose_spec w
               (tool_create (opt_tool options) (opt_data options)
                  (opt_readOnly options))
               maps.1 maps.2 (opt_api_blockTools options) st1)
    as (add & buttons & count & st2 & -> & Hheap & Hc2 & Hi2).
  eexists _, st2. split; [done|]. simpl.
  split; [done|]. split; [by destruct maps|].
  split; [by rewrite Hc2, Hc|]. split; [by rewrite Hi2, Hi|].
  split.
  - apply not_elem_of_dom. apply is_fresh.
  - intros name data Hlook Hfree. rewrite Hheap.
    apply Hkept; [apply NoDup_fst_map_to_list| |done].
    by apply elem_of_map_to_list.
Qed.

(** The unit the constructor returns has distinct tune names when the tool
    has. *)
Lemma new_tune_names_NoDup w options st b st1 :
  NoDup (tune_name <$> tool_tunes (opt_tool options)) →
  new w options st = (Returned b, st1) →
  NoDup (tuneEntries b).*1.
Proof.
  intros Hnd Hnew.
  destruct (new_spec w options st) as (b' & st1' & Hnew' & _ & Hmaps & _).
  rewrite Hnew in Hnew'. injection Hnew' as <- <-.
  unfold tuneEntries. rewrite fmap_app.
  replace (tunesInstances b) with
    (instantiateTunes (tool_tunes (opt_tool options))
       (opt_tunesData options) ([], [])).1 by by rewrite <- Hmaps.
  replace (defaultTunesInstances b) with
    (instantiateTunes (tool_tunes (opt_tool options))
       (opt_tunesData options) ([], [])).2 by by rewrite <- Hmaps.
  apply instantiateTunes_NoDup; [apply NoDup_nil_2|done|].
  intros n _. apply not_elem_of_nil.
Qed.

(** A save leaves alone the names that no tune of the unit has. *)
Lemma save_keeps_other_names w b st name :
  name ∉ (tuneEntries b).*1 →
  deref (heap (save w b st).2) (unavailableTunesData b) !! name
  = deref (heap st) (unavailableTunesData b) !! name.
Proof.
  intros Hnot. destruct (tool_save (toolInstance b) w) as [data|e] eqn:Hd.
  - destruct (save_tool_returns w b st data Hd) as (st' & -> & Htunes).
    destruct (saveTunes_spec w (unavailableTunesData b) (tuneEntries b) st)
      as (st'' & Heq & Hobj & _).
    rewrite Htunes in Heq. injection Heq as <-. simpl.
    rewrite Hobj. by apply mergePayloads_other.
  - by rewrite (save_tool_throws w b st e Hd).
Qed.

Lemma afterSaves_keeps_other_names b (ws : list World) st name :
  name ∉ (tuneEntries b).*1 →
  deref (heap (afterSaves b ws st)) (unavailableTunesData b) !! name
  = deref (heap st) (unavailableTunesData b) !! name.
Proof.
  intros Hnot. revert st. induction ws as [|w ws IH]; intros st; [done|].
  simpl. rewrite IH. by apply save_keeps_other_names.
Qed.

(** C6: a unit is constructed with persisted data under a name that none
    of the tunes of its tool has.  Then the constructor returns a unit,
    and every later save of it whose tool extraction succeeds, after any
    number of saves, returns a record whose [tunes] holds that data,
    unchanged, under that name. *)
Theorem unavailable_tune_data_round_trip w options st name payload :
  opt_tunesData options !! name = Some payload →
  name ∉ tune_name <$> tool_tunes (opt_tool options) →
  ∃ b st1,
    new w options st = (Returned b, st1)
    ∧ ∀ (ws : list World) w' data,
        tool_save (toolInstance b) w' = Returned data →
        ∃ r st3,
          save w' b (afterSaves b ws st1) = (Returned (Some r), st3)
          ∧ saved_data r = data
          ∧ deref (heap st3) (saved_tunes r) !! name = Some payload.
Proof.
  intros Hdata Hunloaded.
  destruct (new_spec w options st)
    as (b & st1 & Hnew & _ & Hmaps & _ & _ & _ & Hkept).
  assert (name ∉ (tuneEntries b).*1) as Hnot.
  { intros Hin. unfold tuneEntries in Hin. rewrite fmap_app in Hin.
    replace (tunesInstances b) with
      (instantiateTunes (tool_tunes (opt_tool options))
         (opt_tunesData options) ([], [])).1 in Hin by by rewrite <- Hmaps.
    replace (defaultTunesInstances b) with
      (instantiateTunes (tool_tunes (opt_tool options))
         (opt_tunesData options) ([], [])).2 in Hin by by rewrite <- Hmaps.
    apply instantiateTunes_keys in Hin as [Hin|Hin]; [done|].
    by apply elem_of_nil in Hin. }
  exists b, st1. split; [exact Hnew|].
  intros ws w' data Htool.
  destruct (save_tool_returns w' b (afterSaves b ws st1) data Htool)
    as (st3 & Hsave & _).
  eexists _, st3. split; [exact Hsave|]. split; [done|]. simpl.
  replace st3 with (save w' b (afterSaves b ws st1)).2 by by rewrite Hsave.
  rewrite save_keeps_other_names, afterSaves_keeps_other_names by done.
  apply Hkept; [done|].
  unfold Map_has. apply bool_decide_eq_false. intros Hin. apply Hnot.
  unfold tuneEntries. rewrite fmap_app, elem_of_app. by left.
Qed.

End ConstructionProperties.

(** ** The editable unit: what a save returns and what the hooks may do *)

Section HookProperties.
Import Block.
Context {BlockToolData BlockTuneData World NodeRef : Type}.
Context `{!Browser World NodeRef}.
Implicit Types (w : World) (st : @State BlockTuneData NodeRef).
Implicit Types (b : @Block BlockToolData BlockTuneData World).
Implicit Types (tune : @TuneInstance BlockTuneData World).
Implicit Types (tunes : list (@TuneInstance BlockTuneData World)).
Implicit Types (entries : list (string * @TuneInstance BlockTuneData World)).
Implicit Types (toolInstance : @ToolInstance BlockToolData World).
Implicit Types (l : loc).

Lemma tunePayload_returned w tune f data :
  tune_save tune = Some f → f w = Returned data →
  tunePayload w tune = Some data.
Proof. intros Hf Hd. unfold tunePayload. by rewrite Hf, Hd. Qed.

Lemma tunePayload_thrown w tune f e :
  tune_save tune = Some f → f w = Thrown e → tunePayload w tune = None.
Proof. intros Hf Hd. unfold tunePayload. by rewrite Hf, Hd. Qed.

(** A successful save, with all that the loop over the tunes does. *)
Lemma save_returns_spec w b st data :
  tool_save (toolInstance b) w = Returned data →
  ∃ r st', save w b st = (Returned (Some r), st')
           ∧ saved_data r = data
           ∧ saved_tunes r = unavailableTunesData b
           ∧ deref (heap st') (unavailableTunesData b)
             = mergePayloads w (deref (heap st) (unavailableTunesData b))
                 (tuneEntries b)
           ∧ trace st' = trace st ++ saveWarnings w (tuneEntries b).
Proof.
  intros Hd. destruct (save_tool_returns w b st data Hd) as (st' & -> & Ht).
  destruct (saveTunes_spec w (unavailableTunesData b) (tuneEntries b) st)
    as (st'' & Heq & Hobj & _ & _ & _ & Htrace).
  rewrite Ht in Heq. injection Heq as <-. by eexists _, st'.
Qed.

(** C7, as amended: one of the tunes of a unit throws in its [save] hook.
    Then [save] still returns a record: it has the data the tool
    extracted, and its [tunes] holds the payload of every tune whose hook
    returned; the throwing tune writes nothing, so that what the record
    has under its name is what the store of the unit had there before the
    save: nothing, or what was persisted or saved earlier; the failure is
    logged as a warning. *)
Theorem save_survives_tune_failure w b st data name tune f e :
  tool_save (toolInstance b) w = Returned data →
  NoDup (tuneEntries b).*1 →
  (name, tune) ∈ tuneEntries b →
  tune_save tune = Some f → f w = Thrown e →
  ∃ r st',
    save w b st = (Returned (Some r), st')
    ∧ saved_id r = id b ∧ saved_tool r = Block.name b
    ∧ saved_data r = data
    ∧ (∀ name' tune' f' data',
         (name', tune') ∈ tuneEntries b →
         tune_save tune' = Some f' → f' w = Returned data' →
         deref (heap st') (saved_tunes r) !! name' = Some data')
    ∧ deref (heap st') (saved_tunes r) !! name
      = deref (heap st) (unavailableTunesData b) !! name
    ∧ saveWarning tune e ∈ trace st'.
Proof.
  intros Hd Hnd Hin Hf He.
  destruct (save_tool_returns w b st data Hd) as (st' & Hsave & Ht).
  destruct (saveTunes_spec w (unavailableTunesData b) (tuneEntries b) st)
    as (st'' & Heq & Hobj & _ & _ & _ & Htrace).
  rewrite Ht in Heq. injection Heq as <-.
  eexists _, st'. split; [exact Hsave|]. simpl.
  repeat split.
  - intros name' tune' f' data' Hin' Hf' Hd'. rewrite Hobj.
    eapply mergePayloads_written; [done..|].
    by eapply tunePayload_returned.
  - rewrite Hobj. eapply mergePayloads_omitted; [done..|].
    by eapply tunePayload_thrown.
  - rewrite Htrace, elem_of_app. right.
    by eapply saveWarnings_elem_of.
Qed.

(** C10: the [tunes] of the record a save returns is the very object the
    unit keeps as [unavailableTunesData].  The payloads of the loaded
    tunes are written into that object, and they stay: the record of a
    second save still shows, for a tune whose hook throws that time, the
    payload of the first. *)
Theorem save_writes_into_unavailable_store w b st data :
  tool_save (toolInstance b) w = Returned data →
  NoDup (tuneEntries b).*1 →
  ∃ r st',
    save w b st = (Returned (Some r), st')
    ∧ saved_tunes r = unavailableTunesData b
    ∧ (∀ name tune f payload,
         (name, tune) ∈ tuneEntries b →
         tune_save tune = Some f → f w = Returned payload →
         deref (heap st') (unavailableTunesData b) !! name = Some payload)
    ∧ ∀ w2 data2,
        tool_save (toolInstance b) w2 = Returned data2 →
        ∃ r2 st2,
          save w2 b st' = (Returned (Some r2), st2)
          ∧ saved_tunes r2 = saved_tunes r
          ∧ ∀ name tune f payload e,
              (name, tune) ∈ tuneEntries b →
              tune_save tune = Some f →
              f w = Returned payload → f w2 = Thrown e →
              deref (heap st2) (saved_tunes r) !! name = Some payload.
Proof.
  intros Hd Hnd.
  destruct (save_returns_spec w b st data Hd)
    as (r & st' & Hsave & _ & Hsame & Hobj & _).
  exists r, st'. split; [exact Hsave|]. split; [exact Hsame|].
  assert (∀ name tune f payload,
            (name, tune) ∈ tuneEntries b →
            tune_save tune = Some f → f w = Returned payload →
            deref (heap st') (unavailableTunesData b) !! name
            = Some payload) as Hfirst.
  { intros name tune f payload Hin Hf Hp. rewrite Hobj.
    eapply mergePayloads_written; [done..|].
    by eapply tunePayload_returned. }
  split; [exact Hfirst|].
  intros w2 data2 Hd2.
  destruct (save_returns_spec w2 b st' data2 Hd2)
    as (r2 & st2 & Hsave2 & _ & Hsame2 & Hobj2 & _).
  exists r2, st2. split; [exact Hsave2|]. split; [congruence|].
  intros name tune f payload e Hin Hf Hp He2.
  rewrite Hsame, Hobj2.
  erewrite mergePayloads_omitted; [by eapply Hfirst|done..|].
  by eapply tunePayload_thrown.
Qed.

(** *** Which hooks are fenced *)

Lemma saveTunes_app w l entries1 entries2 st :
  saveTunes w l (entries1 ++ entries2) st
  = (saveTunes w l entries1;; saveTunes w l entries2) st.
Proof.
  revert st. induction entries1 as [|[n t] entries1 IH]; intros st.
  - done.
  - rewrite <- app_comm_cons. simpl saveTunes. rewrite bind_assoc.
    apply bind_ext. intros _ st1. apply IH.
Qed.

Lemma wrapTunes_app w tunes1 tunes2 node st :
  wrapTunes w (tunes1 ++ tunes2) node st
  = (let* node := wrapTunes w tunes1 node in wrapTunes w tunes2 node) st.
Proof.
  revert node st. induction tunes1 as [|t tunes1 IH]; intros node st.
  - done.
  - rewrite <- app_comm_cons. simpl wrapTunes. rewrite bind_assoc.
    apply bind_ext. intros node1 st1. apply IH.
Qed.

(** C5, as amended: the [save] and the [wrap] hook of a tune are fenced.
    When one throws, the loop logs a warning in its place and goes on
    with the tunes after it, from the object or node the tunes before it
    left.  The [validate], [destroy] and [merge] hooks of the tool are not
    fenced: what they throw, [validate], [destroy] and [mergeWith]
    throw. *)
Theorem hook_fault_isolation w :
  (∀ l entries1 name tune f e entries2 st,
     tune_save tune = Some f → f w = Thrown e →
     ∃ st1 st3,
       saveTunes w l entries1 st = (Returned (), st1)
       ∧ saveTunes w l entries2 (record (saveWarning tune e) st1).2
         = (Returned (), st3)
       ∧ saveTunes w l (entries1 ++ (name, tune) :: entries2) st
         = (Returned (), st3))
  ∧ (∀ tunes1 tune f e tunes2 node st,
       tune_wrap tune = Some f →
       f (foldl (wrapStep w) node tunes1) w = Thrown e →
       ∃ st1 st3 node3,
         wrapTunes w tunes1 node st
         = (Returned (foldl (wrapStep w) node tunes1), st1)
         ∧ wrapTunes w tunes2 (foldl (wrapStep w) node tunes1)
             (record (wrapWarning tune e) st1).2
           = (Returned node3, st3)
         ∧ wrapTunes w (tunes1 ++ tune :: tunes2) node st
           = (Returned node3, st3))
  ∧ (∀ toolInstance data f e st,
       tool_validate toolInstance = Some f → f data w = Thrown e →
       validate w toolInstance data st = (Thrown e, st))
  ∧ (∀ toolInstance f e st,
       tool_destroy toolInstance = Some f → f w = Thrown e →
       destroy w toolInstance st
       = (Thrown e, (record DispatcherDestroy st).2))
  ∧ (∀ toolInstance data f e st,
       tool_merge toolInstance = Some f → f data w = Thrown e →
       mergeWith w toolInstance data st = (Thrown e, st)).
Proof.
  repeat split.
  - intros l entries1 name tune f e entries2 st Hf He.
    destruct (saveTunes_spec w l entries1 st) as (st1 & H1 & _).
    destruct (saveTunes_spec w l entries2 (record (saveWarning tune e) st1).2)
      as (st3 & H3 & _).
    exists st1, st3. split; [exact H1|]. split; [exact H3|].
    rewrite saveTunes_app. unfold bind at 1. rewrite H1.
    simpl saveTunes. unfold bind at 1. rewrite Hf.
    unfold try_catch, bind at 1, hook. rewrite He. exact H3.
  - intros tunes1 tune f e tunes2 node st Hf He.
    destruct (wrapTunes_spec w tunes1 node st) as (st1 & H1 & _).
    destruct (wrapTunes_spec w tunes2 (foldl (wrapStep w) node tunes1)
                (record (wrapWarning tune e) st1).2) as (st3 & H3 & _).
    eexists st1, st3, _. split; [exact H1|]. split; [exact H3|].
    rewrite wrapTunes_app. unfold bind at 1. rewrite H1.
    simpl wrapTunes. unfold bind at 1. rewrite Hf.
    unfold try_catch, hook. rewrite He. exact H3.
  - intros toolInstance data f e st Hf He.
    unfold validate, hook. by rewrite Hf, He.
  - intros toolInstance f e st Hf He.
    unfold destroy, bind, hook. simpl. by rewrite Hf, He.
  - intros toolInstance data f e st Hf He.
    unfold mergeWith, hook. by rewrite Hf, He.
Qed.

End HookProperties.

(** ** The properties at concrete units and coordinators *)

Section Scenarios.
Import Block Scenario.

(** *** The coordinator *)

Lemma prepared_reachable : Removeble.reachable modules blockTools prepared.
Proof. by eapply Removeble.reach_prepare with (readOnly := false). Defined.

(** C2, as the specification has it, fails: the coordinator is disabled,
    [toggle(false)] is called, and the [toggleReadOnly] hook of the UI
    module is called all the same. *)
Lemma toggle_same_state_calls_hooks :
  Removeble.removebleEnabled prepared = false
  ∧ Removeble.toggle modules (Some false) prepared
    = (Returned false, prepared, [Removeble.ToggleReadOnly "UI" false]).
Proof. split; reflexivity. Qed.

(** C2 as amended, at the coordinator left by [prepare]. *)
Lemma toggle_same_state_witness :
  Removeble.toggle modules (Some (Removeble.removebleEnabled prepared))
    prepared
  = (Returned (Removeble.removebleEnabled prepared), prepared,
     (λ m, Removeble.ToggleReadOnly (Removeble.module_name m)
             (Removeble.removebleEnabled prepared))
       <$> filter (λ m, Removeble.has_toggleReadOnly m = true) modules)
  ∧ ∀ fx,
      fx ∈ (Removeble.toggle modules
              (Some (Removeble.removebleEnabled prepared)) prepared).2 →
      fx ∉ Removeble.reload.
Proof.
  apply (toggle_same_state modules blockTools prepared prepared_reachable).
Defined.

(** C4 at the coordinator left by [prepare], tool [X] lacking support. *)
Lemma toggle_enable_unsupported_fails_witness :
  ∃ message, Removeble.toggle modules (Some true) prepared
       = (Thrown (Error message), prepared, [])
       ∧ Removeble.isEnabled
           (Removeble.toggle modules (Some true) prepared).1.2
         = Removeble.isEnabled prepared
       ∧ ∀ name, name ∈ Removeble.toolsDontSupportReadOnly prepared →
                 occurs_in name message.
Proof.
  apply (toggle_enable_unsupported_fails modules (Some true) prepared);
    [reflexivity | discriminate].
Defined.

(** *** Mutations *)


(** *** Inputs *)

(** C8 at the unit whose three inputs became two. *)
Lemma currentInput_after_shrink_witness :
  ∃ st', currentInput 1%nat state0
         = (Returned (last (findAllInputs 1%nat)), st')
         ∧ cachedInputs st' = findAllInputs 1%nat
         ∧ inputIndex st' = Z.of_nat (length (findAllInputs 1%nat)) - 1
         ∧ (findAllInputs 1%nat ≠ [] → is_Some (last (findAllInputs 1%nat)))
         ∧ ∀ x, last (findAllInputs 1%nat) = Some x →
                x ∈ findAllInputs 1%nat.
Proof.
  apply (proj2 (currentInput_after_shrink 1%nat state0)); [reflexivity|].
  simpl. lia.
Defined.

(** The three inputs became two: the index goes from 2 to 1 and the
    current input is the second one.  They became none: the index is -1
    and there is no current input. *)
Example currentInput_shrunk :
  currentInput 1%nat state0
  = (Returned (Some 11%nat),
     {| heap := ∅; cachedInputs := [10; 11]%nat; inputIndex := 1;
        trace := [] |})
  ∧ currentInput 3%nat state0
    = (Returned None,
       {| heap := ∅; cachedInputs := []; inputIndex := -1; trace := [] |}).
Proof. split; reflexivity. Qed.

(** *** Saving *)

(** C3 fails on the code: the tool's extraction is rejected with [boom]
    in world [2]; [save] is rejected with [boom] too, and nothing is
    logged, the state being what it was. *)
Lemma save_rejects_when_tool_rejects :
  tool_save (toolInstance unit1) 2%nat = Thrown boom
  ∧ save 2%nat unit1 state1 = (Thrown boom, state1).
Proof. split; reflexivity. Qed.

(** C5, as the specification has it, fails: what the [validate],
    [destroy] and [merge] hooks of the tool throw is thrown on by
    [validate], [destroy] and [mergeWith]. *)
Lemma tool_hooks_not_isolated :
  validate 0%nat faulty "x" state0 = (Thrown boom, state0)
  ∧ (destroy 0%nat faulty state0).1 = Thrown boom
  ∧ mergeWith 0%nat faulty "x" state0 = (Thrown boom, state0).
Proof. repeat split; reflexivity. Qed.

Lemma unit1_names_NoDup : NoDup (tuneEntries unit1).*1.
Proof. unfold tuneEntries. simpl. compute_done. Defined.

(** C7 at a save in world [1], where the hook of [anchor] throws. *)
Lemma save_survives_tune_failure_witness :
  ∃ r st',
    save 1%nat unit1 state1 = (Returned (Some r), st')
    ∧ saved_id r = id unit1 ∧ saved_tool r = name unit1
    ∧ saved_data r = "hi"
    ∧ (∀ name' tune' f' data',
         (name', tune') ∈ tuneEntries unit1 →
         tune_save tune' = Some f' → f' 1%nat = Returned data' →
         deref (heap st') (saved_tunes r) !! name' = Some data')
    ∧ deref (heap st') (saved_tunes r) !! "anchor"
      = deref (heap state1) (unavailableTunesData unit1) !! "anchor"
    ∧ saveWarning (anchor None) boom ∈ trace st'.
Proof.
  apply (save_survives_tune_failure 1%nat unit1 state1 "hi" "anchor"
           (anchor None)
           (λ w, if decide (w = 0%nat) then Returned "top" else Thrown boom)
           boom).
  - reflexivity.
  - exact unit1_names_NoDup.
  - unfold tuneEntries. simpl. set_solver.
  - reflexivity.
  - reflexivity.
Defined.

(** C7, as the specification has it, fails: the hook of [anchor] returns
    ["top"] at a first save, in world [0], and throws at the second, in
    world [1]; the record of the second save is not without a contribution
    of [anchor]: it has the ["top"] of the first save under its name. *)
Lemma save_keeps_payload_of_throwing_tune :
  ∃ f r1 st1 r2 st2,
    ("anchor", anchor None) ∈ tuneEntries unit1
    ∧ tune_save (anchor None) = Some f
    ∧ f 1%nat = Thrown boom
    ∧ save 0%nat unit1 state1 = (Returned (Some r1), st1)
    ∧ save 1%nat unit1 st1 = (Returned (Some r2), st2)
    ∧ deref (heap st2) (saved_tunes r2) !! "anchor" = Some "top".
Proof.
  eexists _, _, _, _, _.
  split; [unfold tuneEntries; simpl; rewrite !elem_of_cons; tauto|].
  split; [reflexivity|].
  split; [reflexivity|].
  split; [vm_compute; reflexivity|].
  split; vm_compute; reflexivity.
Qed.

(** C10 at a save in world [0]. *)
Lemma save_writes_into_unavailable_store_witness :
  ∃ r st',
    save 0%nat unit1 state1 = (Returned (Some r), st')
    ∧ saved_tunes r = unavailableTunesData unit1
    ∧ (∀ name tune f payload,
         (name, tune) ∈ tuneEntries unit1 →
         tune_save tune = Some f → f 0%nat = Returned payload →
         deref (heap st') (unavailableTunesData unit1) !! name
         = Some payload)
    ∧ ∀ w2 data2,
        tool_save (toolInstance unit1) w2 = Returned data2 →
        ∃ r2 st2,
          save w2 unit1 st' = (Returned (Some r2), st2)
          ∧ saved_tunes r2 = saved_tunes r
          ∧ ∀ name tune f payload e,
              (name, tune) ∈ tuneEntries unit1 →
              tune_save tune = Some f →
              f 0%nat = Returned payload → f w2 = Thrown e →
              deref (heap st2) (saved_tunes r) !! name = Some payload.
Proof.
  apply (save_writes_into_unavailable_store 0%nat unit1 state1 "hi");
    [reflexivity | exact unit1_names_NoDup].
Defined.

(** Two saves of the same unit: in world [0] the hook of [anchor]
    returns ["top"], in world [1] it throws; the record of the second
    save has the ["top"] of the first, beside the data of the tune that is
    not loaded. *)
Example save_twice :
  let st1 := (save 0%nat unit1 state1).2 in
  let st2 := (save 1%nat unit1 st1).2 in
  map_to_list (deref (heap st2) (unavailableTunesData unit1))
  ≡ₚ [("align", "left"); ("anchor", "top"); ("legacy", "kept");
      ("readonly", "on")].
Proof. compute_done. Qed.

(** C6 at the unit constructed with data for the tune [legacy], which the
    tool does not have. *)
Lemma unavailable_tune_data_round_trip_witness :
  ∃ b st1,
    new 0%nat options state0 = (Returned b, st1)
    ∧ ∀ (ws : list nat) w' data,
        tool_save (toolInstance b) w' = Returned data →
        ∃ r st3,
          save w' b (afterSaves b ws st1) = (Returned (Some r), st3)
          ∧ saved_data r = data
          ∧ deref (heap st3) (saved_tunes r) !! "legacy" = Some "kept".
Proof.
  apply (unavailable_tune_data_round_trip 0%nat options state0
           "legacy" "kept").
  - reflexivity.
  - simpl. compute_done.
Defined.


(** C5 as amended, at the tune [anchor], whose [save] throws in world [1],
    and at the tool whose [validate] throws. *)
Lemma hook_fault_isolation_witness :
  (∃ st1 st3,
     saveTunes 1%nat 1%positive [("align", align (Some "left"))] state1
     = (Returned (), st1)
     ∧ saveTunes 1%nat 1%positive [("readonly", readonly None)]
         (record (saveWarning (anchor None) boom) st1).2
       = (Returned (), st3)
     ∧ saveTunes 1%nat 1%positive (tuneEntries unit1) state1
       = (Returned (), st3))
  ∧ validate 1%nat faulty "x" state0 = (Thrown boom, state0).
Proof.
  destruct (hook_fault_isolation (BlockToolData := string)
              (BlockTuneData := string) (NodeRef := nat) 1%nat)
    as (Hsave & _ & Hvalidate & _).
  split.
  - apply (Hsave 1%positive [("align", align (Some "left"))] "anchor"
             (anchor None)
             (λ w, if decide (w = 0%nat) then Returned "top" else Thrown boom)
             boom [("readonly", readonly None)] state1);
      reflexivity.
  - apply (Hvalidate faulty "x" (λ _ _, Thrown boom) boom state0);
      reflexivity.
Defined.

(** C9 at the unit with the user tunes [align] and [anchor] and the
    internal tune [readonly]: [anchor] does not wrap, the wrapper of
    [readonly] is around that of [align], which is around the content. *)
Lemma compose_is_left_fold_witness :
  ∃ add buttons count st',
    compose 0%nat paragraph
      [("align", align (Some "left")); ("anchor", anchor None)]
      [("readonly", readonly None)] [paragraphTool] state1
    = (Returned
         (Element "div" [CSS.wrapper] []
            [Element "div" ["readonly"] []
               [Element "div" ["align"] []
                  [contentNodeOf (tool_render paragraph)]];
             add],
          buttons, count), st').
Proof.
  destruct (compose_is_left_fold 0%nat paragraph
              [("align", align (Some "left")); ("anchor", anchor None)]
              [("readonly", readonly None)] [paragraphTool] state1)
    as (add & buttons & count & st' & Heq & _ & _ & Hnested).
  exists add, buttons, count, st'. rewrite Heq.
  rewrite (Hnested [ (λ inner, Element "div" ["align"] [] [inner]);
                     (λ inner, inner);
                     (λ inner, Element "div" ["readonly"] [] [inner]) ]).
  - reflexivity.
  - repeat constructor.
Defined.

End Scenarios.

(** * Further properties of the code *)

(** ** The read-only coordinator: [prepare] and the transitions of [toggle] *)

Section RemovebleTransitions.
Import Removeble.
Implicit Types (Editor : list EditorModule) (blockTools : list ToolEntry).
Implicit Types (st : State) (arg : option bool).

Lemma scanTools_filter blockTools :
  scanTools blockTools
  = entry_name <$> filter (λ t, isReadOnlySupported t = false) blockTools.
Proof.
  induction blockTools as [|t rest IH]; [done|].
  simpl. rewrite filter_cons.
  destruct (isReadOnlySupported t); simpl; by rewrite IH.
Qed.

Lemma prepare_tools Editor blockTools readOnly st r st' fx :
  prepare Editor blockTools readOnly st = (r, st', fx) →
  toolsDontSupportReadOnly st' = scanTools blockTools.
Proof.
  unfold prepare. destruct (readOnly && _).
  - by intros [= <- <- <-].
  - destruct (toggle _ _ _) as [[r2 st2] fx2] eqn:Htog.
    intros [= <- <- <-]. by apply toggle_keeps_tools in Htog.
Qed.

Lemma reachable_tools Editor blockTools st :
  reachable Editor blockTools st →
  toolsDontSupportReadOnly st = scanTools blockTools.
Proof.
  induction 1 as [readOnly st fx Hprep | arg st r st' fx _ IH Htog].
  - by eapply prepare_tools.
  - by rewrite (toggle_keeps_tools _ _ _ _ _ _ Htog).
Qed.

(** The list of unsupported tools is computed by [prepare] and never
    changes afterwards: in every state the coordinator can be in it is the
    names, in the order of the registry, of the tools that do not declare
    support. *)
Theorem unsupported_tools_fixed Editor blockTools st :
  reachable Editor blockTools st →
  toolsDontSupportReadOnly st
  = entry_name <$> filter (λ t, isReadOnlySupported t = false) blockTools.
Proof.
  intros Hreach. rewrite <- scanTools_filter. by eapply reachable_tools.
Qed.

(** Whenever read-only is enabled, every tool of the registry supports
    it. *)
Theorem enabled_only_when_supported Editor blockTools st :
  reachable Editor blockTools st →
  isEnabled st = true →
  ∀ t, t ∈ blockTools → isReadOnlySupported t = true.
Proof.
  intros Hreach Hen t Hin.
  pose proof (reachable_invariant _ _ _ Hreach Hen) as Hnil.
  rewrite (reachable_tools _ _ _ Hreach), scanTools_filter in Hnil.
  destruct (isReadOnlySupported t) eqn:Hsup; [done|].
  apply fmap_nil_inv in Hnil.
  assert (t ∈ filter (λ t, isReadOnlySupported t = false) blockTools) as Hf
    by by apply list_elem_of_filter.
  rewrite Hnil in Hf. by apply elem_of_nil in Hf.
Qed.

(** [prepare] with [readOnly: true] while some tool lacks support throws
    the critical error, which names each such tool; no module is called and
    read-only stays as it was. *)
Theorem prepare_readOnly_unsupported_fails Editor blockTools st :
  scanTools blockTools ≠ [] →
  ∃ message st',
    prepare Editor blockTools true st = (Thrown (Error message), st', [])
    ∧ removebleEnabled st' = removebleEnabled st
    ∧ ∀ t, t ∈ blockTools → isReadOnlySupported t = false →
           occurs_in (entry_name t) message.
Proof.
  intros Hne. unfold prepare.
  apply length_pos_nonempty in Hne as Hpos. rewrite Hpos. simpl.
  eexists _, _. split; [done|]. split; [done|].
  intros t Hin Hsup. simpl. unfold criticalMessage. simpl.
  apply occurs_in_append_l, occurs_in_append_r, occurs_in_join.
  rewrite scanTools_filter. apply list_elem_of_fmap. exists t.
  split; [done|]. by apply list_elem_of_filter.
Qed.

(** In every other case [prepare] returns: read-only is what the
    configuration asks for, every module with the hook was called once with
    it, and the document was reloaded, once, only when this changed the
    state. *)
Theorem prepare_returns Editor blockTools readOnly st :
  (readOnly = true → scanTools blockTools = []) →
  prepare Editor blockTools readOnly st
  = (Returned (),
     {| toolsDontSupportReadOnly := scanTools blockTools;
        removebleEnabled := readOnly |},
     ((λ m, ToggleReadOnly (module_name m) readOnly)
        <$> filter (λ m, has_toggleReadOnly m = true) Editor)
     ++ (if bool_decide (removebleEnabled st = readOnly)
         then [] else reload)).
Proof.
  intros Hok. unfold prepare, toggle. simpl.
  rewrite <- callToggleReadOnly_filter.
  assert (readOnly && (0 <? Z.of_nat (length (scanTools blockTools)))
          = false) as ->.
  { destruct readOnly; [|done]. by rewrite Hok. }
  case_bool_decide; [by rewrite app_nil_r | done].
Qed.

(** A call of [toggle] that changes the state, and is allowed to, returns
    the new state, having called every module with the hook once with the
    new state, and then the save, the clear and the render, once each and
    in this order. *)
Theorem toggle_changes_state Editor st target :
  target ≠ removebleEnabled st →
  (target = true → toolsDontSupportReadOnly st = []) →
  toggle Editor (Some target) st
  = (Returned target,
     {| toolsDontSupportReadOnly := toolsDontSupportReadOnly st;
        removebleEnabled := target |},
     ((λ m, ToggleReadOnly (module_name m) target)
        <$> filter (λ m, has_toggleReadOnly m = true) Editor)
     ++ [SaverSave; BlockManagerClear; RendererRender]).
Proof.
  intros Hne Hok. unfold toggle. simpl.
  assert (target && (0 <? Z.of_nat (length (toolsDontSupportReadOnly st)))
          = false) as ->.
  { destruct target; [|done]. by rewrite Hok. }
  rewrite bool_decide_eq_false_2 by done.
  by rewrite callToggleReadOnly_filter.
Qed.

(** [toggle()] without argument, the tools all supporting read-only:
    it returns the negation of the state, and called twice it leaves the
    coordinator in the state it was in. *)
Theorem toggle_default_twice Editor st :
  toolsDontSupportReadOnly st = [] →
  ∃ st1 fx1 fx2,
    toggle Editor None st = (Returned (negb (removebleEnabled st)), st1, fx1)
    ∧ toggle Editor None st1 = (Returned (removebleEnabled st), st, fx2).
Proof.
  intros Hnil. unfold toggle. simpl. rewrite Hnil. simpl.
  rewrite andb_false_r.
  rewrite bool_decide_eq_false_2 by by destruct (removebleEnabled st).
  eexists _, _, _. split; [done|]. simpl. rewrite andb_false_r.
  rewrite bool_decide_eq_false_2 by by destruct (removebleEnabled st).
  rewrite negb_involutive, <- Hnil. by rewrite state_eta.
Qed.

End RemovebleTransitions.

(** ** The editable unit: the cache of inputs and the tracked index *)

Section InputTracking.
Import Block.
Context {BlockToolData BlockTuneData World NodeRef : Type}.
Context `{!Browser World NodeRef}.
Implicit Types (w : World) (st : @State BlockTuneData NodeRef).
Implicit Types (b : @Block BlockToolData BlockTuneData World).
Implicit Types (element : option NodeRef) (l : list NodeRef).

(** What a read of [inputs] leaves: the list it returns is the cache. *)
Lemma inputs_result w st :
  ∃ l st0, inputs w st = (Returned l, st0)
           ∧ cachedInputs st0 = l
           ∧ heap st0 = heap st ∧ trace st0 = trace st
           ∧ inputIndex st0
             = (if bool_decide (cachedInputs st = [])
                then Z.min (inputIndex st) (Z.of_nat (length l) - 1)
                else inputIndex st)
           ∧ (cachedInputs st ≠ [] → l = cachedInputs st ∧ st0 = st)
           ∧ (cachedInputs st = [] → l = findAllInputs w).
Proof.
  destruct (cachedInputs st) as [|c cs] eqn:Hc.
  - rewrite (inputs_recomputed _ _ Hc). eexists _, _.
    split; [done|]. rewrite bool_decide_eq_true_2 by done. by repeat split.
  - rewrite inputs_cached by by rewrite Hc. eexists _, _.
    split; [done|]. rewrite bool_decide_eq_false_2 by done. by repeat split.
Qed.

Lemma findIndex_first {A} (p : A → bool) (arr : list A) i k x :
  arr !! k = Some x → p x = true →
  (∀ j y, (j < k)%nat → arr !! j = Some y → p y = false) →
  findIndex p arr i = i + Z.of_nat k.
Proof.
  revert i k. induction arr as [|a arr IH]; intros i k Hk Hp Hearlier.
  - done.
  - destruct k as [|k]; simpl in *.
    + injection Hk as ->. rewrite Hp. lia.
    + rewrite (Hearlier 0%nat a) by (done || lia).
      rewrite (IH (i + 1) k); [lia|done..|].
      intros j y Hj Hy. apply (Hearlier (S j)); [lia|done].
Qed.

Lemma findIndex_none {A} (p : A → bool) (arr : list A) i :
  (∀ x, x ∈ arr → p x = false) → findIndex p arr i = -1.
Proof.
  revert i. induction arr as [|a arr IH]; intros i Hall; [done|].
  simpl. rewrite (Hall a) by by left.
  apply IH. intros x Hx. apply Hall. by right.
Qed.

Lemma findIndex_range {A} (p : A → bool) (arr : list A) i :
  0 ≤ i →
  findIndex p arr i = -1
  ∨ (i ≤ findIndex p arr i < i + Z.of_nat (length arr)).
Proof.
  revert i. induction arr as [|a arr IH]; intros i Hi; [by left|].
  simpl. destruct (p a); [right; lia|].
  destruct (IH (i + 1)) as [->|?]; [lia|by left|right; lia].
Qed.

(** What the setter leaves. *)
Lemma set_currentInput_result w element st :
  ∃ l st0, inputs w st = (Returned l, st0)
    ∧ set_currentInput w element st
      = (Returned (),
         if findIndex (owns w element) l 0 =? -1 then st0
         else {| heap := heap st0; cachedInputs := cachedInputs st0;
                 inputIndex := findIndex (owns w element) l 0;
                 trace := trace st0 |}).
Proof.
  destruct (inputs_result w st) as (l & st0 & Heq & _).
  exists l, st0. split; [done|].
  unfold set_currentInput, bind. rewrite Heq.
  by destruct (findIndex _ _ _ =? -1).
Qed.

(** The cache: a list that was read and is not empty is what every later
    read returns, whatever the document has become, and such a read changes
    nothing; an empty list is not kept, the next read scans the document
    again. *)
Theorem inputs_cache_kept w w' st :
  ∃ l st1,
    inputs w st = (Returned l, st1)
    ∧ (l ≠ [] → inputs w' st1 = (Returned l, st1))
    ∧ (l = [] → ∃ st2, inputs w' st1 = (Returned (findAllInputs w'), st2)).
Proof.
  destruct (inputs_result w st) as (l & st1 & Heq & Hcache & _).
  exists l, st1. split; [done|]. split.
  - intros Hne. rewrite inputs_cached by by rewrite Hcache. by rewrite Hcache.
  - intros ->. rewrite (inputs_recomputed w' st1 Hcache). by eexists.
Qed.

(** The setter of [currentInput]: when no input is or contains the
    element, it does what a read of [inputs] does and nothing more; else
    the index becomes the position of the first input that is or contains
    the element, and [currentInput] then returns that input, in whatever
    world it is read. *)
Theorem set_currentInput_resolves w element st :
  ∃ l st0,
    inputs w st = (Returned l, st0)
    ∧ ((∀ x, x ∈ l → owns w element x = false) →
       set_currentInput w element st = (Returned (), st0))
    ∧ ∀ k x,
        l !! k = Some x → owns w element x = true →
        (∀ j y, (j < k)%nat → l !! j = Some y → owns w element y = false) →
        ∃ st1,
          set_currentInput w element st = (Returned (), st1)
          ∧ inputIndex st1 = Z.of_nat k
          ∧ cachedInputs st1 = l
          ∧ ∀ w', currentInput w' st1 = (Returned (Some x), st1).
Proof.
  destruct (set_currentInput_result w element st) as (l & st0 & Heq & Hset).
  destruct (inputs_result w st) as (l' & st0' & Heq' & Hcache & _).
  rewrite Heq in Heq'. injection Heq' as <- <-.
  exists l, st0. split; [done|]. split.
  - intros Hnone. rewrite Hset, findIndex_none by done. done.
  - intros k x Hk Hp Hearlier.
    rewrite Hset, (findIndex_first _ _ 0 k x) by done.
    destruct (0 + Z.of_nat k =? -1) eqn:E; [apply Z.eqb_eq in E; lia|].
    eexists. split; [done|]. simpl. split; [lia|]. split; [done|].
    intros w'. unfold currentInput, bind, get_inputIndex, ret.
    rewrite inputs_cached; simpl.
    + unfold js_index.
      destruct (0 + Z.of_nat k <? 0) eqn:E'; [apply Z.ltb_lt in E'; lia|].
      replace (Z.to_nat (0 + Z.of_nat k)) with k by lia.
      rewrite Hcache. by rewrite Hk.
    + rewrite Hcache. intros ->. done.
Qed.

(** Moving on: when the input after the current one is not inside an
    earlier input, making [nextInput] the current input moves the index by
    one, and [currentInput] is then that input. *)
Theorem move_to_nextInput w st (i : nat) y :
  inputIndex st = Z.of_nat i →
  cachedInputs st !! S i = Some y →
  (∀ j x, (j < S i)%nat → cachedInputs st !! j = Some x →
          owns w (Some y) x = false) →
  ∃ st1,
    (let* next := nextInput w in set_currentInput w next) st
    = (Returned (), st1)
    ∧ inputIndex st1 = Z.of_nat i + 1
    ∧ currentInput w st1 = (Returned (Some y), st1).
Proof.
  intros Hi Hy Hearlier.
  assert (cachedInputs st ≠ []) as Hne by (intros E; by rewrite E in Hy).
  unfold bind at 1, nextInput, bind at 1.
  rewrite inputs_cached by done.
  unfold bind, get_inputIndex, ret. simpl.
  assert (js_index (cachedInputs st) (inputIndex st + 1) = Some y) as ->.
  { unfold js_index. rewrite Hi.
    destruct (Z.of_nat i + 1 <? 0) eqn:E; [apply Z.ltb_lt in E; lia|].
    by replace (Z.to_nat (Z.of_nat i + 1)) with (S i) by lia. }
  destruct (set_currentInput_result w (Some y) st) as (l & st0 & Heq & ->).
  rewrite inputs_cached in Heq by done. injection Heq as <- <-.
  rewrite (findIndex_first _ _ 0 (S i) y); [|done| |done].
  2:{ unfold owns. by rewrite bool_decide_eq_true_2. }
  destruct (0 + Z.of_nat (S i) =? -1) eqn:E; [apply Z.eqb_eq in E; lia|].
  eexists. split; [done|]. simpl. split; [lia|].
  unfold currentInput, bind, get_inputIndex, ret.
  rewrite inputs_cached by done. simpl. unfold js_index.
  destruct (0 + Z.of_nat (S i) <? 0) eqn:E'; [apply Z.ltb_lt in E'; lia|].
  replace (Z.to_nat (0 + Z.of_nat (S i))) with (S i) by lia.
  by rewrite Hy.
Qed.

(** A unit that was seen without inputs has no current input even when
    inputs appear: the index was set to [-1] and a read does not bring it
    back; the inputs are found, [currentInput] is [undefined]. *)
Theorem currentInput_undefined_after_empty w w' st :
  cachedInputs st = [] → findAllInputs w = [] → -1 ≤ inputIndex st →
  ∃ st1 st2,
    inputs w st = (Returned [], st1)
    ∧ currentInput w' st1 = (Returned None, st2)
    ∧ cachedInputs st2 = findAllInputs w'
    ∧ inputIndex st2 = -1.
Proof.
  intros Hnil Hempty Hidx.
  rewrite (inputs_recomputed _ _ Hnil), Hempty. simpl.
  eexists _, _. split; [done|].
  unfold currentInput, bind, get_inputIndex, ret.
  rewrite inputs_recomputed by done. simpl.
  match goal with
  | |- context [js_index _ ?i] => replace i with (-1) by lia
  end.
  split; [done|]. split; [done|]. simpl. lia.
Qed.

End InputTracking.

(** ** The editable unit: what the operations keep *)

Section OperationProperties.
Import Block.
Context {BlockToolData BlockTuneData World NodeRef : Type}.
Context `{!Browser World NodeRef}.
Implicit Types (w : World) (st : @State BlockTuneData NodeRef).
Implicit Types (b : @Block BlockToolData BlockTuneData World).
Implicit Types (toolInstance : @ToolInstance BlockToolData World).
Implicit Types (element : option NodeRef).
Implicit Types (tune : @TuneInstance BlockTuneData World).

Lemma indexInRange_same st st' :
  cachedInputs st' = cachedInputs st → inputIndex st' = inputIndex st →
  indexInRange st → indexInRange st'.
Proof. unfold indexInRange. by intros -> ->. Qed.

Lemma inputs_keeps_range w st :
  indexInRange st → indexInRange (inputs w st).2.
Proof.
  intros [Hlow Hhigh].
  destruct (inputs_result w st) as (l & st0 & -> & Hc & _ & _ & Hi & Hkept & _).
  simpl. destruct (decide (cachedInputs st = [])) as [Hnil|Hne].
  - rewrite bool_decide_eq_true_2 in Hi by done.
    split; rewrite Hi, ?Hc; [lia|]. intros _. lia.
  - destruct (Hkept Hne) as [_ ->]. by split.
Qed.

Lemma set_currentInput_keeps_range w element st :
  indexInRange st → indexInRange (set_currentInput w element st).2.
Proof.
  intros Hrange. apply (inputs_keeps_range w) in Hrange.
  destruct (set_currentInput_result w element st) as (l & st0 & Heq & ->).
  destruct (inputs_result w st) as (l' & st0' & Heq' & Hcache & _).
  rewrite Heq in Heq', Hrange. injection Heq' as <- <-. simpl in *.
  destruct (findIndex _ _ _ =? -1) eqn:E; [done|].
  apply Z.eqb_neq in E.
  destruct (findIndex_range (owns w element) l 0) as [?|Hin]; [lia|done|].
  split; simpl; [lia|]. intros _. rewrite Hcache. lia.
Qed.

Lemma call_keeps_fields w toolInstance methodName st :
  sameButTrace st (call w toolInstance methodName st).2.
Proof.
  destruct (call_spec w toolInstance methodName st) as (c & evs & -> & _).
  done.
Qed.

Lemma save_keeps_fields w b st :
  cachedInputs (save w b st).2 = cachedInputs st
  ∧ inputIndex (save w b st).2 = inputIndex st
  ∧ (∀ l, l ≠ unavailableTunesData b →
          heap (save w b st).2 !! l = heap st !! l)
  ∧ ∃ evs, trace (save w b st).2 = trace st ++ evs
           ∧ ∀ ev, ev ∈ evs → ∃ tune e, ev = saveWarning tune e.
Proof.
  destruct (tool_save (toolInstance b) w) as [data|e] eqn:Hd.
  - destruct (save_tool_returns w b st data Hd) as (st' & -> & Htunes).
    destruct (saveTunes_spec w (unavailableTunesData b) (tuneEntries b) st)
      as (st'' & Heq & _ & Hother & Hc & Hi & Ht).
    rewrite Htunes in Heq. injection Heq as <-. simpl.
    repeat split; try done.
    exists (saveWarnings w (tuneEntries b)). split; [done|].
    intros ev (entry & _ & Hev)%list_elem_of_omap.
    destruct (tune_save entry.2) as [f|]; [|done].
    destruct (f w) as [|e]; [done|]. injection Hev as <-. by eexists _, _.
  - rewrite (save_tool_throws w b st e Hd). simpl.
    repeat split; try done. exists []. rewrite app_nil_r. split; [done|].
    by intros ev ?%elem_of_nil.
Qed.

Lemma perform_keeps_range b (step : World * Operation) st :
  indexInRange st → indexInRange (perform b step st).
Proof.
  intros Hrange. destruct step as [w op]. unfold perform. simpl.
  destruct op.
  - by apply inputs_keeps_range.
  - unfold currentInput, bind, get_inputIndex, ret.
    apply (inputs_keeps_range w) in Hrange.
    by destruct (inputs w st) as [[l|e] st0].
  - by apply set_currentInput_keeps_range.
  - unfold firstInput, bind, ret. apply (inputs_keeps_range w) in Hrange.
    by destruct (inputs w st) as [[l|e] st0].
  - unfold lastInput, bind, ret. apply (inputs_keeps_range w) in Hrange.
    by destruct (inputs w st) as [[l|e] st0].
  - unfold nextInput, bind, get_inputIndex, ret.
    apply (inputs_keeps_range w) in Hrange.
    by destruct (inputs w st) as [[l|e] st0].
  - unfold previousInput, bind, get_inputIndex, ret.
    apply (inputs_keeps_range w) in Hrange.
    by destruct (inputs w st) as [[l|e] st0].
  - by apply set_currentInput_keeps_range.
  - unfold handleFocus, bind at 1. simpl.
    apply set_currentInput_keeps_range. by destruct Hrange.
  - unfold didMutated. destruct (existsb _ mutations); [done|]. simpl.
    unfold bind at 1. simpl. unfold bind at 1.
    rewrite updateCurrentInput_recomputed by done. simpl.
    unfold bind at 1.
    destruct (call_spec w (toolInstance b) UPDATED
                {| heap := heap st; cachedInputs := findAllInputs w;
                   inputIndex := resolvedIndex w (inputIndex st);
                   trace := trace st |}) as (c & evs & -> & _).
    assert (indexInRange
              {| heap := heap st; cachedInputs := findAllInputs w;
                 inputIndex := resolvedIndex w (inputIndex st);
                 trace := trace st ++ evs |}); [|by destruct c].
    assert (indexInRange
              (updateCurrentInput w
                 {| heap := heap st; cachedInputs := [];
                    inputIndex := inputIndex st; trace := trace st |}).2)
      as Hupd.
    { apply set_currentInput_keeps_range. by destruct Hrange. }
    rewrite updateCurrentInput_recomputed in Hupd by done. done.
  - eapply indexInRange_same; [| |exact Hrange];
      by destruct (call_keeps_fields w (toolInstance b) methodName st)
        as (_ & ? & ?).
  - unfold mergeWith, hook. by destruct (tool_merge _).
  - eapply indexInRange_same; [| |exact Hrange];
      by destruct (save_keeps_fields w b st) as (? & ? & _).
  - unfold validate, hook, ret. by destruct (tool_validate _).
  - unfold destroy, bind, hook, ret. simpl. by destruct (tool_destroy _).
Qed.

(** From its construction on and whatever is done with it, the tracked
    index of a unit is [-1] or a position of the cached list of inputs:
    no operation leaves it beyond the end of that list or below [-1]. *)
Theorem index_stays_in_range w options st
    (steps : list (World * Operation)) :
  ∃ b st1,
    new w options st = (Returned b, st1)
    ∧ indexInRange (performAll b steps st1).
Proof.
  destruct (new_spec w options st) as (b & st1 & Hnew & _ & _ & Hc & Hi & _).
  exists b, st1. split; [done|].
  assert (indexInRange st1) as Hrange.
  { split; [lia|]. by rewrite Hc. }
  clear Hnew Hc Hi. revert st1 Hrange.
  induction steps as [|step steps IH]; intros st1 Hrange; [done|].
  simpl. by apply IH, perform_keeps_range.
Qed.

Lemma resolvedIndex_idem w (i : Z) :
  resolvedIndex w (resolvedIndex w i) = resolvedIndex w i.
Proof.
  unfold resolvedIndex. destruct (findIndex _ _ _ =? -1); [lia|done].
Qed.

(** On focus the cache is replaced by the inputs of the live document,
    filled or not, and the index is resolved against them; the store and
    the trace are untouched, and a second focus in the same world changes
    nothing more. *)
Theorem handleFocus_rescans w st :
  ∃ st1,
    handleFocus w st = (Returned (), st1)
    ∧ cachedInputs st1 = findAllInputs w
    ∧ inputIndex st1 = resolvedIndex w (inputIndex st)
    ∧ heap st1 = heap st ∧ trace st1 = trace st
    ∧ handleFocus w st1 = (Returned (), st1).
Proof.
  unfold handleFocus, bind at 1. simpl.
  rewrite updateCurrentInput_recomputed by done. simpl.
  eexists. repeat split; try done.
  unfold bind. simpl. rewrite updateCurrentInput_recomputed by done.
  simpl. by rewrite resolvedIndex_idem.
Qed.


(** A save writes to the store of its unit and to the log, and to nothing
    else, whether it returns or throws: the cache of inputs and the index
    are what they were, every other object is what it was, and all that is
    logged is warnings about save hooks of tunes. *)
Theorem save_writes_store_only w b st :
  cachedInputs (save w b st).2 = cachedInputs st
  ∧ inputIndex (save w b st).2 = inputIndex st
  ∧ (∀ l, l ≠ unavailableTunesData b →
          heap (save w b st).2 !! l = heap st !! l)
  ∧ ∃ evs, trace (save w b st).2 = trace st ++ evs
           ∧ ∀ ev, ev ∈ evs → ∃ tune e, ev = saveWarning tune e.
Proof. apply save_keeps_fields. Qed.

End OperationProperties.

(** ** The editable unit: what the constructor builds *)

Section ConstructorProperties.
Import Block.
Context {BlockToolData BlockTuneData World NodeRef : Type}.
Context `{!Browser World NodeRef}.
Implicit Types (w : World) (st : @State BlockTuneData NodeRef).
Implicit Types (b : @Block BlockToolData BlockTuneData World).
Implicit Types (tune : @BlockTune BlockTuneData World).
Implicit Types (tunes : list (@BlockTune BlockTuneData World)).
Implicit Types (tool : @BlockTool BlockToolData BlockTuneData World).
Implicit Types (tools : list (@BlockTool BlockToolData BlockTuneData World)).
Implicit Types (user internal : list (string * @TuneInstance BlockTuneData World)).
Implicit Types (options : @BlockConstructorOptions BlockToolData BlockTuneData World).
Implicit Types (toolInstance : @ToolInstance BlockToolData World).
Implicit Types (l : loc).

(** *** The picker *)

Lemma addTool_result tool (picker : HTMLElement) (buttons : list HTMLElement)
    (count : Z) st :
  (hasToolboxIcon tool = true →
   ∃ button,
     getAttribute "data-tool" button = Some (tool_name tool)
     ∧ addTool tool (picker, buttons, count) st
       = (Returned (appendChild picker button, buttons ++ [button], count + 1),
          st))
  ∧ (iconMissing tool = true →
     addTool tool (picker, buttons, count) st
     = (Returned (picker, buttons, count), (record (iconWarning tool) st).2))
  ∧ (hasToolboxIcon tool = false → iconMissing tool = false →
     addTool tool (picker, buttons, count) st
     = (Returned (picker, buttons, count), st)).
Proof.
  unfold addTool, hasToolboxIcon, iconMissing.
  destruct (tool_toolbox tool) as [tb|]; [|by repeat split].
  destruct (bool_decide (icon tb = "")); simpl; repeat split; try done.
  intros _. eexists. split; [|done].
  unfold getAttribute, make, setAttribute, appendChild. simpl. done.
Qed.

(** The loop of [addTools]: a button for each tool with an icon, in the
    order of the tools; a warning for each tool with a toolbox and no
    icon. *)
Lemma addTools_result tools (picker : HTMLElement)
    (buttons : list HTMLElement) (count : Z) st :
  ∃ picker' newButtons st',
    addTools tools (picker, buttons, count) st
    = (Returned (picker', buttons ++ newButtons,
                 count + Z.of_nat (length newButtons)), st')
    ∧ getAttribute "data-tool" <$> newButtons
      = (λ tool, Some (tool_name tool))
          <$> filter (λ tool, hasToolboxIcon tool = true) tools
    ∧ picker' = foldl appendChild picker newButtons
    ∧ trace st'
      = trace st
        ++ (iconWarning <$> filter (λ tool, iconMissing tool = true) tools)
    ∧ sameButTrace st st'.
Proof.
  revert picker buttons count st.
  induction tools as [|tool tools IH]; intros picker buttons count st.
  - exists picker, [], st. simpl. rewrite !app_nil_r, Z.add_0_r.
    by repeat split.
  - simpl addTools. unfold bind. rewrite !filter_cons.
    destruct (addTool_result tool picker buttons count st)
      as (Hshown & Hmissing & Hnone).
    destruct (hasToolboxIcon tool) eqn:Hs.
    + destruct (Hshown eq_refl) as (button & Hattr & ->).
      assert (iconMissing tool = false) as Hm.
      { unfold hasToolboxIcon, iconMissing in *.
        destruct (tool_toolbox tool); [|done]. by destruct (bool_decide _). }
      rewrite Hm.
      destruct (IH (appendChild picker button) (buttons ++ [button])
                  (count + 1) st)
        as (picker' & newButtons & st' & -> & Hnames & Hpicker & Ht & Hsame).
      exists picker', (button :: newButtons), st'.
      rewrite decide_True, decide_False by done.
      split; [|split; [|split; [done|split; [done|done]]]].
      * rewrite <- app_assoc. simpl. do 3 f_equal. lia.
      * rewrite !fmap_cons. by rewrite Hattr, Hnames.
    + destruct (iconMissing tool) eqn:Hm.
      * rewrite (Hmissing eq_refl).
        destruct (IH picker buttons count (record (iconWarning tool) st).2)
          as (picker' & newButtons & st' & -> & Hnames & Hpicker & Ht & Hsame).
        exists picker', newButtons, st'.
        rewrite decide_False, decide_True by done.
        split; [done|]. split; [done|]. split; [done|]. split.
        -- rewrite Ht. simpl. by rewrite <- app_assoc.
        -- eapply sameButTrace_trans; [|exact Hsame].
           apply sameButTrace_record.
      * rewrite (Hnone eq_refl eq_refl).
        destruct (IH picker buttons count st)
          as (picker' & newButtons & st' & -> & Hnames & Hpicker & Ht & Hsame).
        exists picker', newButtons, st'.
        rewrite !decide_False by done. done.
Qed.

Lemma wrapTunes_trace w (tunes : list (@TuneInstance BlockTuneData World))
    node st :
  ∃ evs, trace (wrapTunes w tunes node st).2 = trace st ++ evs.
Proof.
  revert node st. induction tunes as [|tune tunes IH]; intros node st.
  - exists []. simpl. by rewrite app_nil_r.
  - simpl. unfold bind at 1.
    destruct (tune_wrap tune) as [f|]; [|apply IH].
    unfold try_catch, hook. destruct (f node w) as [outer|e]; [apply IH|].
    unfold bind at 1, log. simpl.
    edestruct IH as (evs & ->). simpl. eexists. by rewrite <- app_assoc.
Qed.

(** The fields [compose] fills beside the holder. *)
Lemma compose_buttons w toolInstance user internal tools st :
  ∃ holder newButtons st',
    compose w toolInstance user internal tools st
    = (Returned (holder, newButtons, Z.of_nat (length newButtons)), st')
    ∧ getAttribute "data-tool" <$> newButtons
      = (λ tool, Some (tool_name tool))
          <$> filter (λ tool, hasToolboxIcon tool = true) tools
    ∧ ∃ evs, trace st'
             = trace st
               ++ (iconWarning
                     <$> filter (λ tool, iconMissing tool = true) tools)
               ++ evs.
Proof.
  unfold compose. unfold bind at 1.
  destruct (addTools_result tools (make "div" CSS.toolbox) [] 0 st)
    as (picker' & newButtons & st1 & -> & Hnames & _ & Ht & _).
  unfold bind at 1.
  destruct (wrapTunes_spec w (user.*2 ++ internal.*2)
              (contentNodeOf (tool_render toolInstance)) st1)
    as (st2 & Hw & _).
  destruct (wrapTunes_trace w (user.*2 ++ internal.*2)
              (contentNodeOf (tool_render toolInstance)) st1) as (evs & He).
  rewrite Hw in He |- *. simpl in *.
  eexists _, newButtons, st2. split; [done|]. split; [done|].
  exists evs. by rewrite He, Ht, <- app_assoc.
Qed.

Lemma foldl_appendChild tagName classList attributes childNodes
    (nodes : list HTMLElement) :
  foldl appendChild (Element tagName classList attributes childNodes) nodes
  = Element tagName classList attributes (childNodes ++ nodes).
Proof.
  revert childNodes. induction nodes as [|node nodes IH]; intros childNodes.
  - simpl. by rewrite app_nil_r.
  - simpl. rewrite IH. by rewrite <- app_assoc.
Qed.

(** All that the loop of [compose] over the tunes logs is warnings about
    [wrap] methods that threw. *)
Lemma wrapTunes_warnings w
    (tunes : list (@TuneInstance BlockTuneData World)) node st :
  ∃ evs, trace (wrapTunes w tunes node st).2 = trace st ++ evs
         ∧ ∀ ev, ev ∈ evs →
                 ∃ (tune : @TuneInstance BlockTuneData World) e,
                   tune ∈ tunes ∧ ev = wrapWarning tune e.
Proof.
  revert node st. induction tunes as [|tune tunes IH]; intros node st.
  - exists []. simpl. rewrite app_nil_r. split; [done|].
    by intros ev ?%elem_of_nil.
  - assert (∀ node' st',
              ∃ evs, trace (wrapTunes w tunes node' st').2 = trace st' ++ evs
                     ∧ ∀ ev, ev ∈ evs →
                             ∃ (tune' : @TuneInstance BlockTuneData World) e,
                               tune' ∈ tune :: tunes
                               ∧ ev = wrapWarning tune' e) as IH'.
    { intros node' st'. destruct (IH node' st') as (evs & Ht & Hall).
      exists evs. split; [done|]. intros ev Hev.
      destruct (Hall ev Hev) as (tune' & e & Hin & ->).
      exists tune', e. split; [by right|done]. }
    simpl. unfold bind at 1.
    destruct (tune_wrap tune) as [f|]; [|apply IH'].
    unfold try_catch, hook. destruct (f node w) as [outer|e]; [apply IH'|].
    unfold bind at 1, log. simpl.
    edestruct IH' as (evs & -> & Hall). simpl.
    exists (wrapWarning tune e :: evs). split; [by rewrite <- app_assoc|].
    intros ev [->|Hev]%elem_of_cons; [|by apply Hall].
    exists tune, e. split; [by left|done].
Qed.

(** [compose], with the picker under the [add] control and all it logs. *)
Lemma compose_picker w toolInstance user internal tools st :
  ∃ wrapped newButtons evs st',
    compose w toolInstance user internal tools st
    = (Returned
         (Element "div" [CSS.wrapper] []
            [wrapped;
             Element "div" [CSS.add] []
               [svg "intermediate_plus" 13 13;
                Element "div" [CSS.toolbox] [] newButtons]],
          newButtons, Z.of_nat (length newButtons)), st')
    ∧ getAttribute "data-tool" <$> newButtons
      = (λ tool, Some (tool_name tool))
          <$> filter (λ tool, hasToolboxIcon tool = true) tools
    ∧ trace st'
      = trace st
        ++ (iconWarning <$> filter (λ tool, iconMissing tool = true) tools)
        ++ evs
    ∧ ∀ ev, ev ∈ evs →
            ∃ (tune : @TuneInstance BlockTuneData World) e,
              tune ∈ user.*2 ++ internal.*2 ∧ ev = wrapWarning tune e.
Proof.
  unfold compose. unfold bind at 1.
  destruct (addTools_result tools (make "div" CSS.toolbox) [] 0 st)
    as (picker' & newButtons & st1 & -> & Hnames & Hpicker & Ht & _).
  unfold bind at 1.
  destruct (wrapTunes_spec w (user.*2 ++ internal.*2)
              (contentNodeOf (tool_render toolInstance)) st1)
    as (st2 & Hw & _).
  destruct (wrapTunes_warnings w (user.*2 ++ internal.*2)
              (contentNodeOf (tool_render toolInstance)) st1)
    as (evs & He & Hall).
  rewrite Hw in He |- *. simpl in *.
  eexists _, newButtons, evs, st2. split.
  - unfold make in Hpicker. rewrite foldl_appendChild in Hpicker.
    rewrite Hpicker. reflexivity.
  - split; [done|]. split; [|done]. by rewrite He, Ht, <- app_assoc.
Qed.

(** *** The parts of the constructor *)

Lemma retainUnavailable_heap (entries : list (string * BlockTuneData))
    user l st :
  ∃ st', retainUnavailable entries user l st = (Returned (), st')
         ∧ (∀ l', l' ≠ l → heap st' !! l' = heap st !! l')
         ∧ (is_Some (heap st !! l) → is_Some (heap st' !! l))
         ∧ (∀ name, Map_has name user = true →
                    deref (heap st') l !! name = deref (heap st) l !! name).
Proof.
  revert st. induction entries as [|[n d] entries IH]; intros st.
  - by exists st.
  - simpl. unfold bind at 1.
    destruct (Map_has n user) eqn:Hhas; simpl.
    + edestruct IH as (st' & -> & Hother & Halloc & Hhasd). by exists st'.
    + edestruct IH as (st' & -> & Hother & Halloc & Hhasd).
      exists st'. simpl in *. split; [done|]. split; [|split].
      * intros l' Hne. rewrite Hother by done. by rewrite lookup_insert_ne.
      * intros _. apply Halloc. rewrite lookup_insert_eq. by eexists.
      * intros name Hname. rewrite Hhasd by done. unfold deref at 1.
        rewrite lookup_insert_eq. simpl. rewrite lookup_insert_ne; [done|].
        intros ->. congruence.
Qed.

(** The constructor, step by step. *)
Lemma new_parts w options st :
  let l := fresh (dom (heap st)) in
  let maps :=
    instantiateTunes (tool_tunes (opt_tool options)) (opt_tunesData options)
      ([], []) in
  let toolInstance :=
    tool_create (opt_tool options) (opt_data options) (opt_readOnly options) in
  ∃ st_r holder buttons st1,
    retainUnavailable (map_to_list (opt_tunesData options)) maps.1 l
      {| heap := <[l := ∅]> (heap st); cachedInputs := [];
         inputIndex := 0; trace := trace st |}
    = (Returned (), st_r)
    ∧ compose w toolInstance maps.1 maps.2 (opt_api_blockTools options) st_r
      = (Returned (holder, buttons, Z.of_nat (length buttons)), st1)
    ∧ new w options st
      = (Returned
           {| id := default (generateBlockId w) (opt_id options);
              name := tool_name (opt_tool options);
              canBeRemoved := opt_canBeRemoved options;
              canBeEdited := opt_canBeEdited options;
              Block.toolInstance := toolInstance;
              tunesInstances := maps.1;
              defaultTunesInstances := maps.2;
              unavailableTunesData := l;
              Block.holder := holder;
              nodes_buttons := buttons;
              displayedToolsCount := Z.of_nat (length buttons) |}, st1).
Proof.
  intros l maps toolInstance.
  edestruct (retainUnavailable_heap (map_to_list (opt_tunesData options))
               maps.1 l) as (st_r & Hr & _).
  destruct (compose_buttons w toolInstance maps.1 maps.2
              (opt_api_blockTools options) st_r)
    as (holder & buttons & st1 & Hc & _).
  exists st_r, holder, buttons, st1. split; [exact Hr|]. split; [exact Hc|].
  unfold new. unfold bind at 1. unfold set_cachedInputs at 1.
  unfold bind at 1. unfold alloc at 1. simpl.
  unfold bind at 1. unfold set_inputIndex at 1. simpl.
  unfold bind at 1, composeTunes. unfold bind at 1.
  fold l. fold maps. rewrite Hr. unfold ret at 1. unfold bind at 1.
  fold toolInstance. by rewrite Hc.
Qed.

Lemma NoDup_fmap_eq {A B} (f : A → B) (xs : list A) x y :
  NoDup (f <$> xs) → x ∈ xs → y ∈ xs → f x = f y → x = y.
Proof.
  induction xs as [|a xs IH]; intros Hnd Hx Hy Heq.
  - by apply elem_of_nil in Hx.
  - rewrite fmap_cons in Hnd. apply NoDup_cons in Hnd as [Hfresh Hnd].
    apply elem_of_cons in Hx as [->|Hx]; apply elem_of_cons in Hy as [->|Hy].
    + done.
    + exfalso. apply Hfresh. rewrite Heq. by apply list_elem_of_fmap_2.
    + exfalso. apply Hfresh. rewrite <- Heq. by apply list_elem_of_fmap_2.
    + by apply IH.
Qed.

(** With distinct names each tune gets an entry of its own, user tunes in
    one map and internal tunes in the other, in the order of the tool. *)
Lemma instantiateTunes_routed tunes tunesData user internal :
  NoDup (tune_name <$> tunes) →
  (∀ n, n ∈ tune_name <$> tunes → n ∉ user.*1 ++ internal.*1) →
  instantiateTunes tunes tunesData (user, internal)
  = (user ++ (instanceOf tunesData
                <$> filter (λ tune, isInternal tune = false) tunes),
     internal ++ (instanceOf tunesData
                    <$> filter (λ tune, isInternal tune = true) tunes)).
Proof.
  revert user internal.
  induction tunes as [|tune tunes IH]; intros user internal Hnd Hnew.
  - simpl. by rewrite !app_nil_r.
  - rewrite fmap_cons in Hnd. apply NoDup_cons in Hnd as [Hhead Hnd].
    assert (tune_name tune ∉ user.*1 ++ internal.*1) as Hfresh.
    { apply Hnew. rewrite fmap_cons. by left. }
    rewrite not_elem_of_app in Hfresh. destruct Hfresh as [Hu Hi].
    simpl. rewrite !filter_cons.
    destruct (isInternal tune) eqn:Hint; simpl.
    + rewrite (Map_set_fresh _ _ _ Hi), IH; [|done|].
      * by rewrite ?fmap_cons, <- app_assoc.
      * intros n Hn. rewrite fmap_app. simpl.
        assert (n ∉ user.*1 ++ internal.*1) as Hold.
        { apply Hnew. rewrite fmap_cons. by right. }
        rewrite !not_elem_of_app in *. rewrite list_elem_of_singleton.
        split; [tauto|]. split; [tauto|]. intros ->. done.
    + rewrite (Map_set_fresh _ _ _ Hu), IH; [|done|].
      * by rewrite ?fmap_cons, <- app_assoc.
      * intros n Hn. rewrite fmap_app. simpl.
        assert (n ∉ user.*1 ++ internal.*1) as Hold.
        { apply Hnew. rewrite fmap_cons. by right. }
        rewrite !not_elem_of_app in *. rewrite list_elem_of_singleton.
        split; [|tauto]. split; [tauto|]. intros ->. done.
Qed.

(** The store of a new unit, name by name. *)
Lemma new_store_lookup w options st b st1 name :
  new w options st = (Returned b, st1) →
  deref (heap st1) (unavailableTunesData b) !! name
  = if Map_has name (tunesInstances b) then None
    else opt_tunesData options !! name.
Proof.
  intros Hnew.
  destruct (new_parts w options st)
    as (st_r & holder & buttons & st1' & Hr & Hc & Hnew').
  rewrite Hnew in Hnew'. injection Hnew' as -> <-. simpl.
  set (l := fresh (dom (heap st))) in *.
  set (maps := instantiateTunes _ _ _) in *.
  destruct (compose_spec w
              (tool_create (opt_tool options) (opt_data options)
                 (opt_readOnly options))
              maps.1 maps.2 (opt_api_blockTools options) st_r)
    as (add & buttons' & count & st1' & Hc' & Hheap & _).
  rewrite Hc in Hc'. injection Hc' as _ _ _ <-. rewrite Hheap.
  set (st_a := {| heap := <[l := ∅]> (heap st); cachedInputs := [];
                  inputIndex := 0; trace := trace st |}) in *.
  destruct (retainUnavailable_spec (map_to_list (opt_tunesData options))
              maps.1 l st_a) as (st_r' & Hr' & _ & _ & _ & Hframe & Hkept).
  rewrite Hr in Hr'. injection Hr' as <-.
  destruct (retainUnavailable_heap (map_to_list (opt_tunesData options))
              maps.1 l st_a) as (st_r' & Hr' & _ & _ & Hhas).
  rewrite Hr in Hr'. injection Hr' as <-.
  destruct (Map_has name maps.1) eqn:Hname.
  - rewrite Hhas by done. simpl. unfold deref.
    by rewrite lookup_insert_eq.
  - destruct (opt_tunesData options !! name) as [data|] eqn:Hdata.
    + apply Hkept; [apply NoDup_fst_map_to_list| |done].
      by apply elem_of_map_to_list.
    + rewrite Hframe.
      * simpl. unfold deref. by rewrite lookup_insert_eq.
      * intros ((n & d) & -> & Hin%elem_of_map_to_list)%list_elem_of_fmap.
        simpl in Hdata. congruence.
Qed.

(** *** What a new unit has *)

(** The picker of a new unit is the toolbox element under the [add]
    control of the holder; its children are the buttons of [nodes.buttons]:
    one for each tool of the registry that declares a toolbox with an icon,
    in the order of the registry and marked with the name of its tool;
    [displayedToolsCount] is their number.  What the constructor logs is
    one warning for each tool that declares a toolbox without icon, in the
    order of the registry, and after them nothing but warnings about tunes
    whose [wrap] threw: of a tool without toolbox nothing is logged. *)
Theorem picker_buttons_counted w options st :
  ∃ b st1 wrapped evs,
    new w options st = (Returned b, st1)
    ∧ holder b
      = Element "div" [CSS.wrapper] []
          [wrapped;
           Element "div" [CSS.add] []
             [svg "intermediate_plus" 13 13;
              Element "div" [CSS.toolbox] [] (nodes_buttons b)]]
    ∧ displayedToolsCount b = Z.of_nat (length (nodes_buttons b))
    ∧ getAttribute "data-tool" <$> nodes_buttons b
      = (λ tool, Some (tool_name tool))
          <$> filter (λ tool, hasToolboxIcon tool = true)
                (opt_api_blockTools options)
    ∧ trace st1
      = trace st
        ++ (iconWarning
              <$> filter (λ tool, iconMissing tool = true)
                    (opt_api_blockTools options))
        ++ evs
    ∧ ∀ ev, ev ∈ evs →
            ∃ (tune : @TuneInstance BlockTuneData World) e,
              tune ∈ (tuneEntries b).*2 ∧ ev = wrapWarning tune e.
Proof.
  destruct (new_parts w options st)
    as (st_r & holder & buttons & st1 & Hr & Hc & Hnew).
  match type of Hc with
  | compose _ ?ti ?u ?i ?ts _ = _ =>
      destruct (compose_picker w ti u i ts st_r)
        as (wrapped & buttons' & evs & st1' & Hc' & Hnames & Ht & Hall)
  end.
  rewrite Hc in Hc'. injection Hc' as -> -> _ <-.
  eexists _, st1, wrapped, evs. split; [exact Hnew|]. simpl.
  split; [done|]. split; [done|]. split; [exact Hnames|].
  split.
  - rewrite Ht. f_equal.
    match type of Hr with
    | retainUnavailable ?en ?u ?l ?st_a = _ =>
        destruct (retainUnavailable_spec en u l st_a)
          as (st_r' & Hr' & _ & _ & Htr & _)
    end.
    rewrite Hr in Hr'. by injection Hr' as <-.
  - unfold tuneEntries. simpl. by rewrite fmap_app.
Qed.

(** Two units never share a store: a second unit gets a reference of its
    own, its construction leaves the store of the first as it is, and a
    save of either leaves the store of the other as it is. *)
Theorem units_do_not_share_store w1 options1 w2 options2 st :
  ∃ b1 st1 b2 st2,
    new w1 options1 st = (Returned b1, st1)
    ∧ new w2 options2 st1 = (Returned b2, st2)
    ∧ unavailableTunesData b1 ≠ unavailableTunesData b2
    ∧ deref (heap st2) (unavailableTunesData b1)
      = deref (heap st1) (unavailableTunesData b1)
    ∧ ∀ w,
        deref (heap (save w b2 st2).2) (unavailableTunesData b1)
        = deref (heap st2) (unavailableTunesData b1)
        ∧ deref (heap (save w b1 st2).2) (unavailableTunesData b2)
          = deref (heap st2) (unavailableTunesData b2).
Proof.
  destruct (new_parts w1 options1 st)
    as (st_r1 & holder1 & buttons1 & st1 & Hr1 & Hc1 & Hnew1).
  destruct (new_parts w2 options2 st1)
    as (st_r2 & holder2 & buttons2 & st2 & Hr2 & Hc2 & Hnew2).
  eexists _, st1, _, st2. split; [exact Hnew1|]. split; [exact Hnew2|].
  simpl. set (l1 := fresh (dom (heap st))) in *.
  set (l2 := fresh (dom (heap st1))) in *.
  (* the first reference is allocated in [st1] *)
  assert (is_Some (heap st1 !! l1)) as Halloc.
  { match type of Hr1 with
    | retainUnavailable ?es ?u _ ?sta = _ =>
        destruct (retainUnavailable_heap es u l1 sta)
          as (st_r' & Hr' & _ & Hkeep & _)
    end.
    rewrite Hr1 in Hr'. injection Hr' as <-.
    match type of Hc1 with
    | compose _ ?ti ?u ?i ?ts _ = _ =>
        destruct (compose_spec w1 ti u i ts st_r1)
          as (add & bs & cnt & st1' & Hc' & Hheap & _)
    end.
    rewrite Hc1 in Hc'. injection Hc' as _ _ _ <-. rewrite Hheap.
    apply Hkeep. simpl. rewrite lookup_insert_eq. by eexists. }
  assert (l1 ≠ l2) as Hne.
  { intros Heq. destruct Halloc as [obj Hobj].
    assert (l2 ∉ dom (heap st1)) as Hfresh by apply is_fresh.
    apply Hfresh. rewrite <- Heq. apply elem_of_dom. by eexists. }
  split; [exact Hne|]. split.
  - match type of Hr2 with
    | retainUnavailable ?es ?u _ ?sta = _ =>
        destruct (retainUnavailable_heap es u l2 sta)
          as (st_r' & Hr' & Hother & _ & _)
    end.
    rewrite Hr2 in Hr'. injection Hr' as <-.
    match type of Hc2 with
    | compose _ ?ti ?u ?i ?ts _ = _ =>
        destruct (compose_spec w2 ti u i ts st_r2)
          as (add & bs & cnt & st2' & Hc' & Hheap & _)
    end.
    rewrite Hc2 in Hc'. injection Hc' as _ _ _ <-.
    unfold deref. rewrite Hheap, Hother by done. simpl.
    by rewrite lookup_insert_ne.
  - intros w. split.
    + match goal with
      | |- context [save w ?b st2] =>
          destruct (save_keeps_fields w b st2) as (_ & _ & Hother & _)
      end.
      unfold deref. by rewrite Hother.
    + match goal with
      | |- context [save w ?b st2] =>
          destruct (save_keeps_fields w b st2) as (_ & _ & Hother & _)
      end.
      unfold deref. by rewrite Hother.
Qed.

(** The store of unavailable data of a new unit holds exactly the
    persisted data whose name no USER tune of the unit has: also the data
    persisted under the name of an internal tune. *)
Theorem unavailable_store_after_construction w options st :
  ∃ b st1,
    new w options st = (Returned b, st1)
    ∧ ∀ name,
        deref (heap st1) (unavailableTunesData b) !! name
        = if Map_has name (tunesInstances b) then None
          else opt_tunesData options !! name.
Proof.
  destruct (new_spec w options st) as (b & st1 & Hnew & _).
  exists b, st1. split; [done|]. intros name.
  by eapply new_store_lookup.
Qed.

(** When the tunes of the tool have distinct names, the unit has one
    instance for each, made from the data persisted under its name (or
    from nothing), the user tunes and the internal tunes apart and each in
    the order of the tool. *)
Theorem tunes_instantiated_by_kind w options st :
  NoDup (tune_name <$> tool_tunes (opt_tool options)) →
  ∃ b st1,
    new w options st = (Returned b, st1)
    ∧ tunesInstances b
      = instanceOf (opt_tunesData options)
          <$> filter (λ tune, isInternal tune = false)
                (tool_tunes (opt_tool options))
    ∧ defaultTunesInstances b
      = instanceOf (opt_tunesData options)
          <$> filter (λ tune, isInternal tune = true)
                (tool_tunes (opt_tool options)).
Proof.
  intros Hnd.
  destruct (new_parts w options st)
    as (st_r & holder & buttons & st1 & _ & _ & Hnew).
  eexists _, st1. split; [exact Hnew|]. simpl.
  rewrite instantiateTunes_routed; [done|done|].
  intros n _. apply not_elem_of_nil.
Qed.

(** Data persisted under the name of a LOADED tune, whose save hook is
    missing or throws at the first save: for an internal tune the data is
    in the record of that save all the same, for a user tune the record has
    nothing under the name. *)
Theorem stored_data_of_loaded_tune w options st tune data w' extracted :
  NoDup (tune_name <$> tool_tunes (opt_tool options)) →
  tune ∈ tool_tunes (opt_tool options) →
  opt_tunesData options !! tune_name tune = Some data →
  tunePayload w' (tune_create tune (Some data)) = None →
  tool_save
    (tool_create (opt_tool options) (opt_data options) (opt_readOnly options))
    w' = Returned extracted →
  ∃ b st1 r st2,
    new w options st = (Returned b, st1)
    ∧ save w' b st1 = (Returned (Some r), st2)
    ∧ deref (heap st2) (saved_tunes r) !! tune_name tune
      = if isInternal tune then Some data else None.
Proof.
  intros Hnd Hin Hdata Hpay Htool.
  destruct (new_spec w options st) as (b & st1 & Hnew & Hti & Hmaps & _).
  pose proof (new_tune_names_NoDup w options st b st1 Hnd Hnew) as Hnames.
  pose proof (new_store_lookup w options st b st1 (tune_name tune) Hnew)
    as Hstore.
  rewrite instantiateTunes_routed in Hmaps;
    [|done|intros n _; apply not_elem_of_nil].
  simpl in Hmaps. injection Hmaps as Huser Hinternal.
  assert ((tune_name tune, tune_create tune (Some data)) ∈ tuneEntries b)
    as Hentry.
  { unfold tuneEntries. rewrite Huser, Hinternal, elem_of_app.
    destruct (isInternal tune) eqn:Hint; [right|left];
      apply list_elem_of_fmap; exists tune;
      (split; [unfold instanceOf; by rewrite Hdata|]);
      by apply list_elem_of_filter. }
  assert (Map_has (tune_name tune) (tunesInstances b)
          = negb (isInternal tune)) as Hhas.
  { unfold Map_has. rewrite Huser, <- list_fmap_compose.
    destruct (isInternal tune) eqn:Hint; simpl.
    - apply bool_decide_eq_false.
      intros (t & Hname & [Ht Hin']%list_elem_of_filter)%list_elem_of_fmap.
      simpl in Hname.
      assert (tune = t) as <- by by eapply NoDup_fmap_eq.
      congruence.
    - apply bool_decide_eq_true. apply list_elem_of_fmap. exists tune.
      split; [done|]. by apply list_elem_of_filter. }
  rewrite <- Hti in Htool.
  destruct (save_returns_spec w' b st1 extracted Htool)
    as (r & st2 & Hsave & _ & Hsame & Hobj & _).
  exists b, st1, r, st2. split; [done|]. split; [done|].
  rewrite Hsame, Hobj.
  erewrite mergePayloads_omitted; [|done..].
  rewrite Hstore, Hhas, Hdata. by destruct (isInternal tune).
Qed.

Lemma Map_set_elem {V} (k : string) (v : V) (m : list (string * V)) n i :
  (n, i) ∈ Map_set k v m → (n, i) ∈ m ∨ i = v.
Proof.
  induction m as [|[k0 v0] m IH]; simpl.
  - intros ?%list_elem_of_singleton. right. congruence.
  - case_decide.
    + intros [[= -> ->]|?]%elem_of_cons; [by right|]. left. by right.
    + intros [[= -> ->]|?]%elem_of_cons; [left; by left|].
      destruct IH as [?|?]; [done|left; by right|by right].
Qed.

(** Every instance was made by the factory of a tune of the tool. *)
Lemma instantiateTunes_instances
    (P : @TuneInstance BlockTuneData World → Prop) tunes tunesData
    user internal :
  (∀ tune data, tune ∈ tunes → P (tune_create tune data)) →
  (∀ n i, (n, i) ∈ user ++ internal → P i) →
  ∀ n i,
    (n, i) ∈ (instantiateTunes tunes tunesData (user, internal)).1
             ++ (instantiateTunes tunes tunesData (user, internal)).2 →
    P i.
Proof.
  revert user internal.
  induction tunes as [|tune tunes IH]; intros user internal Hnew Hold.
  - done.
  - assert (P (tune_create tune (tunesData !! tune_name tune))) as Hthis
      by (apply Hnew; by left).
    assert (∀ tune data, tune ∈ tunes → P (tune_create tune data)) as Hrest
      by (intros t d Ht; apply Hnew; by right).
    simpl. destruct (isInternal tune); simpl; apply IH; try done;
      intros n i; rewrite !elem_of_app; intros [Hi|Hi].
    + apply (Hold n i). rewrite elem_of_app. by left.
    + apply Map_set_elem in Hi as [Hi| ->]; [|done].
      apply (Hold n i). rewrite elem_of_app. by right.
    + apply Map_set_elem in Hi as [Hi| ->]; [|done].
      apply (Hold n i). rewrite elem_of_app. by left.
    + apply (Hold n i). rewrite elem_of_app. by right.
Qed.

(** *** The content of the tool *)

Lemma firstWithClass_wrapStep w (tune : @TuneInstance BlockTuneData World)
    node found :
  wrapsPlainly w tune →
  firstWithClass CSS.content node = Some found →
  firstWithClass CSS.content (wrapStep w node tune) = Some found.
Proof.
  intros Hplain Hnode. unfold wrapStep.
  destruct (tune_wrap tune) as [f|] eqn:Hf; [|done].
  destruct (Hplain f node Hf) as [[e ->]|(t & c & a & Hc & ->)]; [done|].
  simpl. rewrite bool_decide_eq_false_2 by done. by rewrite Hnode.
Qed.

Lemma firstWithClass_wrapFold w
    (tunes : list (@TuneInstance BlockTuneData World)) node found :
  Forall (wrapsPlainly w) tunes →
  firstWithClass CSS.content node = Some found →
  firstWithClass CSS.content (foldl (wrapStep w) node tunes) = Some found.
Proof.
  intros Hall. revert node.
  induction Hall as [|tune tunes Hplain _ IH]; intros node Hnode; [done|].
  simpl. by apply IH, firstWithClass_wrapStep.
Qed.

(** Right after the construction of a unit whose tunes wrap plainly,
    [pluginsContent] is the element the tool rendered; if that is an
    extension node it is the drag handle before it, if that is one too it
    is [null]: the settings trigger, the last child of the content node, is
    never returned. *)
Theorem pluginsContent_of_new_unit (isExtensionNode : HTMLElement → bool)
    w options st :
  (∀ tune data, tune ∈ tool_tunes (opt_tool options) →
                wrapsPlainly w (tune_create tune data)) →
  ∃ b st1,
    new w options st = (Returned b, st1)
    ∧ pluginsContent isExtensionNode (holder b)
      = let rendered := tool_render (toolInstance b) in
        let handle :=
          setAttribute (appendChild (make "div" CSS.dnd) (svg "drag" 13 13))
            "draggable" "true" in
        if negb (isExtensionNode rendered) then Some rendered
        else if negb (isExtensionNode handle) then Some handle
        else None.
Proof.
  intros Hplain.
  destruct (new_parts w options st)
    as (st_r & holder & buttons & st1 & Hr & Hc & Hnew).
  eexists _, st1. split; [exact Hnew|]. simpl.
  set (maps := instantiateTunes _ _ _) in *.
  set (ti := tool_create _ _ _) in *.
  destruct (compose_spec w ti maps.1 maps.2 (opt_api_blockTools options) st_r)
    as (add & buttons' & count & st1' & Hc' & _).
  rewrite Hc in Hc'. injection Hc' as -> _ _ _.
  assert (Forall (wrapsPlainly w) (maps.1.*2 ++ maps.2.*2)) as Hall.
  { apply Forall_forall. intros inst Hinst.
    rewrite <- fmap_app in Hinst.
    apply list_elem_of_fmap in Hinst as ([n i] & -> & Hin).
    eapply (instantiateTunes_instances (wrapsPlainly w)); [| |exact Hin].
    - intros tune data Htune. by apply Hplain.
    - by intros n' i' ?%elem_of_nil. }
  unfold pluginsContent, querySelector.
  rewrite (firstWithClass_wrapFold w _ _ (contentNodeOf (tool_render ti)) Hall)
    by done.
  unfold contentNodeOf, make, appendChild, setAttribute. simpl.
  destruct (isExtensionNode (tool_render ti)); simpl; [|done].
  by destruct (isExtensionNode _).
Qed.

End ConstructorProperties.

(** ** The editable unit: selection *)

Section SelectionProperties.
Import Block.
Context {BlockToolData BlockTuneData World NodeRef : Type}.
Context `{!Browser World NodeRef}.
Implicit Types (w : World) (st : @State BlockTuneData NodeRef).
Implicit Types (s : @Selected BlockTuneData NodeRef).
Implicit Types (b : @Block BlockToolData BlockTuneData World).
Implicit Types (inputs : list NodeRef).

Local Set Warnings "-clear-no-such-hyp".

(** The loop of [addInputEvents] registers nothing but the listeners of
    the inputs. *)
Lemma addInputEvents_loop w inputs s :
  ∃ s',
    forEach
      (λ input,
         addEventListener input "focus";;
         if isNativeInput w (Some input) then addEventListener input "input"
         else ret ())
      inputs s
    = (Returned (), s')
    ∧ unitState s' = unitState s ∧ observing s' = observing s
    ∧ ∀ x, x ∈ listeners s' ↔
           x ∈ listeners s ∨ x ∈ inputListeners w inputs.
Proof.
  remember (λ input : NodeRef,
              addEventListener input "focus";;
              if isNativeInput w (Some input)
              then addEventListener input "input"
              else ret ()) as f eqn:Hf.
  revert s. induction inputs as [|input inputs IH]; intros s.
  - exists s. repeat split; try done; set_solver.
  - assert (∃ s1, f input s = (Returned (), s1)
                  ∧ unitState s1 = unitState s ∧ observing s1 = observing s
                  ∧ ∀ x, x ∈ listeners s1 ↔
                         x ∈ listeners s ∨ x ∈ inputListeners w [input])
      as (s1 & Hstep & Hu1 & Ho1 & Hl1).
    { subst f. unfold bind, addEventListener, ret, inputListeners. simpl.
      destruct (isNativeInput w (Some input)); simpl;
        eexists; (split; [done|split; [done|split; [done|]]]);
        simpl; intros x; repeat case_bool_decide; set_solver. }
    simpl forEach. unfold bind at 1. rewrite Hstep.
    destruct (IH s1) as (s' & -> & Hu & Ho & Hl). exists s'.
    split; [done|]. split; [congruence|]. split; [congruence|].
    intros x. rewrite Hl, Hl1. unfold inputListeners. rewrite !bind_cons.
    set_solver.
Qed.

(** The listeners of a list of inputs: a focus listener on each, an input
    listener on each native one. *)
Lemma elem_of_inputListeners w inputs (x : NodeRef * string) :
  x ∈ inputListeners w inputs
  ↔ x.1 ∈ inputs
    ∧ (x.2 = "focus"
       ∨ (x.2 = "input" ∧ isNativeInput w (Some x.1) = true)).
Proof.
  unfold inputListeners. rewrite list_elem_of_bind. split.
  - intros (input & Hx & Hin).
    apply elem_of_cons in Hx as [->|Hx]; [by split; [|left]|].
    destruct (isNativeInput w (Some input)) eqn:Hnative.
    + apply list_elem_of_singleton in Hx as ->. simpl.
      split; [done|]. by right.
    + by apply elem_of_nil in Hx.
  - destruct x as [input type]. simpl. intros [Hin [->| [-> Hnative]]].
    + exists input. split; [by left|done].
    + exists input. split; [|done]. rewrite Hnative. right. by left.
Qed.

(** The loop of [removeInputEvents] removes the listeners of the inputs
    and no other. *)
Lemma removeInputEvents_loop w inputs s :
  ∃ s',
    forEach
      (λ input,
         removeEventListener input "focus";;
         if isNativeInput w (Some input)
         then removeEventListener input "input"
         else ret ())
      inputs s
    = (Returned (), s')
    ∧ unitState s' = unitState s ∧ observing s' = observing s
    ∧ ∀ x, x ∈ listeners s' ↔
           x ∈ listeners s ∧ x ∉ inputListeners w inputs.
Proof.
  remember (λ input : NodeRef,
              removeEventListener input "focus";;
              if isNativeInput w (Some input)
              then removeEventListener input "input"
              else ret ()) as f eqn:Hf.
  revert s. induction inputs as [|input inputs IH]; intros s.
  - exists s. repeat split; try done; [|tauto].
    unfold inputListeners. simpl. apply not_elem_of_nil.
  - assert (∃ s1, f input s = (Returned (), s1)
                  ∧ unitState s1 = unitState s ∧ observing s1 = observing s
                  ∧ ∀ x, x ∈ listeners s1 ↔
                         x ∈ listeners s ∧ x ∉ inputListeners w [input])
      as (s1 & Hstep & Hu1 & Ho1 & Hl1).
    { subst f. unfold bind, removeEventListener, ret, inputListeners. simpl.
      destruct (isNativeInput w (Some input)); simpl;
        eexists; (split; [done|split; [done|split; [done|]]]);
        simpl; intros x; rewrite ?list_elem_of_filter, !elem_of_cons,
          elem_of_nil; tauto. }
    simpl forEach. unfold bind at 1. rewrite Hstep.
    destruct (IH s1) as (s' & -> & Hu & Ho & Hl). exists s'.
    split; [done|]. split; [congruence|]. split; [congruence|].
    intros x. rewrite Hl, Hl1, !elem_of_inputListeners.
    rewrite !elem_of_cons, elem_of_nil. tauto.
Qed.

Lemma inputListeners_stable w w' inputs :
  (∀ input, isNativeInput w' (Some input) = isNativeInput w (Some input)) →
  inputListeners w' inputs = inputListeners w inputs.
Proof.
  intros Hstable.
  induction inputs as [|input inputs IH]; [done|].
  unfold inputListeners in *. rewrite !bind_cons, Hstable. by rewrite IH.
Qed.

Lemma compose_firstElementChild w
    (toolInstance : @ToolInstance BlockToolData World)
    (user internal : list (string * @TuneInstance BlockTuneData World))
    (tools : list (@BlockTool BlockToolData BlockTuneData World)) st :
  ∃ holder buttons count st',
    compose w toolInstance user internal tools st
    = (Returned (holder, buttons, count), st')
    ∧ is_Some (firstElementChild holder).
Proof.
  unfold compose. unfold bind at 1.
  destruct (addTools_spec tools (make "div" CSS.toolbox, [], 0) st)
    as (acc & st1 & -> & _).
  unfold bind at 1.
  destruct (wrapTunes_spec w (user.*2 ++ internal.*2)
              (contentNodeOf (tool_render toolInstance)) st1)
    as (st2 & -> & _).
  eexists _, _, _, st2. split; [done|].
  unfold make, appendChild, firstElementChild. simpl.
  rewrite filter_cons.
  destruct (foldl _ _ _) as [t c a ch|m]; simpl; by eexists.
Qed.

(** Selecting a new unit connects its observer and registers a focus
    listener on each of its inputs, and an input listener on each native
    one, and nothing else.  Unselecting it, after whatever was done with
    the unit in between, disconnects the observer and removes the
    listeners of the inputs the unit lists then: a listener stays
    registered exactly when its input is not in that list any more, as
    after a focus that found fewer inputs.  Unselected at once, the unit
    is left without listeners.  Neither call throws, in whatever worlds
    they are made as long as no input changes from native to not native
    or back. *)
Theorem select_unselect_round_trip w0 options st w steps w' :
  (∀ input, isNativeInput w' (Some input) = isNativeInput w (Some input)) →
  ∃ b st1,
    new w0 options st = (Returned b, st1)
    ∧ ∃ s1 l s2,
        willSelect w b
          {| unitState := st1; observing := false; listeners := [] |}
        = (Returned (), s1)
        ∧ observing s1 = true
        ∧ (∀ x, x ∈ listeners s1 ↔ x ∈ inputListeners w (findAllInputs w))
        ∧ (inputs w' (unitState (afterSteps b steps s1))).1 = Returned l
        ∧ willUnselect w' (afterSteps b steps s1) = (Returned (), s2)
        ∧ observing s2 = false
        ∧ (∀ x, x ∈ listeners s2 ↔ x ∈ listeners s1 ∧ x.1 ∉ l)
        ∧ (steps = [] → listeners s2 = []).
Proof.
  intros Hstable.
  destruct (new_parts w0 options st)
    as (st_r & holder & buttons & st1 & Hr & Hc & Hnew).
  eexists _, st1. split; [exact Hnew|].
  assert (cachedInputs st1 = []) as Hcache.
  { destruct (new_spec w0 options st) as (b' & st1' & Hnew' & _ & _ & Hc' & _).
    rewrite Hnew in Hnew'. by injection Hnew' as _ <-. }
  unfold willSelect. simpl.
  match type of Hc with
  | compose _ ?ti ?u ?i ?ts _ = _ =>
      destruct (compose_firstElementChild w0 ti u i ts st_r)
        as (holder' & bs & cnt & st1' & Hc' & [first Hfirst])
  end.
  rewrite Hc in Hc'. injection Hc' as <- _ _ _. rewrite Hfirst.
  unfold bind at 1. simpl. unfold addInputEvents, bind at 1, onUnit. simpl.
  rewrite (inputs_recomputed w st1 Hcache). simpl.
  edestruct (addInputEvents_loop w (findAllInputs w)) as (s1 & -> & Hu & Ho & Hl).
  simpl in *. exists s1.
  assert (∀ x, x ∈ listeners s1 ↔ x ∈ inputListeners w (findAllInputs w))
    as Hreg.
  { intros x. rewrite Hl, elem_of_nil. tauto. }
  unfold willUnselect, bind at 1. simpl.
  unfold removeInputEvents, bind at 1, onUnit. simpl.
  match goal with
  | |- context [performAll ?b steps (unitState s1)] =>
      destruct (inputs_result w' (performAll b steps (unitState s1)))
        as (l & st2 & Hin & _ & _ & _ & _ & Hkept & Hscan)
  end.
  rewrite Hin. simpl.
  edestruct (removeInputEvents_loop w' l) as (s2 & -> & Hu2 & Ho2 & Hl2).
  exists l, s2. simpl in *.
  assert (∀ x, x ∈ listeners s2 ↔ x ∈ listeners s1 ∧ x.1 ∉ l) as Hleft.
  { intros x. rewrite Hl2. split; intros [Hx Hnot]; (split; [done|]).
    - intros Hxl. apply Hnot. apply elem_of_inputListeners.
      split; [done|]. apply Hreg, elem_of_inputListeners in Hx as [_ Hx].
      by rewrite Hstable.
    - intros [Hxl _]%elem_of_inputListeners. done. }
  split; [done|]. split; [done|]. split; [exact Hreg|]. split; [done|].
  split; [done|]. split; [done|]. split; [exact Hleft|].
  intros ->. simpl in *.
  destruct (listeners s2) as [|x rest] eqn:Hs2; [done|]. exfalso.
  destruct (proj1 (Hleft x)) as [Hx Hnot]; [by left|].
  apply Hreg, elem_of_inputListeners in Hx as [Hx _].
  rewrite Hu in Hkept, Hscan. simpl in *.
  destruct (findAllInputs w) as [|i0 rest0] eqn:Hlive.
  - by apply elem_of_nil in Hx.
  - by destruct Hkept as [-> _].
Qed.

End SelectionProperties.

(** ** The further properties at concrete units and coordinators *)

Section MoreScenarioProperties.
Import Block Scenario MoreScenarios.

Lemma preparedReadOnly_reachable :
  Removeble.reachable modules supportedTools preparedReadOnly.
Proof. by eapply Removeble.reach_prepare with (readOnly := true). Defined.

(** The list of unsupported tools of the coordinator left by [prepare]. *)
Lemma unsupported_tools_fixed_witness :
  Removeble.toolsDontSupportReadOnly prepared
  = Removeble.entry_name
      <$> filter (λ t, Removeble.isReadOnlySupported t = false) blockTools.
Proof.
  apply (unsupported_tools_fixed modules blockTools prepared
           prepared_reachable).
Defined.

(** A coordinator that [prepare] left enabled. *)
Lemma enabled_only_when_supported_witness :
  Removeble.reachable modules supportedTools preparedReadOnly
  ∧ Removeble.isEnabled preparedReadOnly = true
  ∧ Forall (λ t, Removeble.isReadOnlySupported t = true) supportedTools.
Proof.
  split; [exact preparedReadOnly_reachable|].
  split; [reflexivity|].
  apply Forall_forall.
  apply (enabled_only_when_supported modules supportedTools preparedReadOnly
           preparedReadOnly_reachable).
  reflexivity.
Defined.

(** [prepare] with [readOnly: true] and the tool [X]. *)
Lemma prepare_readOnly_unsupported_fails_witness :
  ∃ message st',
    Removeble.prepare modules blockTools true Removeble.initial
    = (Thrown (Error message), st', [])
    ∧ Removeble.removebleEnabled st'
      = Removeble.removebleEnabled Removeble.initial
    ∧ ∀ t, t ∈ blockTools → Removeble.isReadOnlySupported t = false →
           occurs_in (Removeble.entry_name t) message.
Proof.
  apply (prepare_readOnly_unsupported_fails modules blockTools
           Removeble.initial).
  discriminate.
Defined.

(** [prepare] with [readOnly: true] and tools that all support it. *)
Lemma prepare_returns_witness :
  Removeble.prepare modules supportedTools true Removeble.initial
  = (Returned (),
     {| Removeble.toolsDontSupportReadOnly :=
          Removeble.scanTools supportedTools;
        Removeble.removebleEnabled := true |},
     ((λ m, Removeble.ToggleReadOnly (Removeble.module_name m) true)
        <$> filter (λ m, Removeble.has_toggleReadOnly m = true) modules)
     ++ (if bool_decide
              (Removeble.removebleEnabled Removeble.initial = true)
         then [] else Removeble.reload)).
Proof.
  apply (prepare_returns modules supportedTools true Removeble.initial).
  reflexivity.
Defined.

(** Switching read-only off again. *)
Lemma toggle_changes_state_witness :
  Removeble.toggle modules (Some false) preparedReadOnly
  = (Returned false,
     {| Removeble.toolsDontSupportReadOnly :=
          Removeble.toolsDontSupportReadOnly preparedReadOnly;
        Removeble.removebleEnabled := false |},
     ((λ m, Removeble.ToggleReadOnly (Removeble.module_name m) false)
        <$> filter (λ m, Removeble.has_toggleReadOnly m = true) modules)
     ++ [Removeble.SaverSave; Removeble.BlockManagerClear;
         Removeble.RendererRender]).
Proof.
  apply (toggle_changes_state modules preparedReadOnly false);
    discriminate.
Defined.

Lemma toggle_default_twice_witness :
  ∃ st1 fx1 fx2,
    Removeble.toggle modules None preparedReadOnly
    = (Returned (negb (Removeble.removebleEnabled preparedReadOnly)), st1, fx1)
    ∧ Removeble.toggle modules None st1
      = (Returned (Removeble.removebleEnabled preparedReadOnly),
         preparedReadOnly, fx2).
Proof.
  apply (toggle_default_twice modules preparedReadOnly). reflexivity.
Defined.

(** From the first input to the second. *)
Lemma move_to_nextInput_witness :
  ∃ st1,
    (let* next := nextInput 0%nat in set_currentInput 0%nat next) cachedState
    = (Returned (), st1)
    ∧ inputIndex st1 = Z.of_nat 0 + 1
    ∧ currentInput 0%nat st1 = (Returned (Some 11%nat), st1).
Proof.
  apply (move_to_nextInput 0%nat cachedState 0 11%nat).
  - reflexivity.
  - reflexivity.
  - intros j x Hj Hx. destruct j as [|j]; [|lia].
    injection Hx as <-. reflexivity.
Defined.

(** The unit seen without inputs in world [3], read again in world [0]. *)
Lemma currentInput_undefined_after_empty_witness :
  ∃ st1 st2,
    inputs 3%nat state0 = (Returned [], st1)
    ∧ currentInput 0%nat st1 = (Returned None, st2)
    ∧ cachedInputs st2 = findAllInputs 0%nat
    ∧ inputIndex st2 = -1.
Proof.
  apply (currentInput_undefined_after_empty 3%nat 0%nat state0);
    [reflexivity | reflexivity | simpl; lia].
Defined.

Lemma paragraphTool_names_NoDup :
  NoDup (tune_name <$> tool_tunes (opt_tool options)).
Proof. simpl. compute_done. Defined.

Lemma tunes_instantiated_by_kind_witness :
  ∃ b st1,
    new 0%nat options state0 = (Returned b, st1)
    ∧ tunesInstances b
      = instanceOf (opt_tunesData options)
          <$> filter (λ tune, isInternal tune = false)
                (tool_tunes (opt_tool options))
    ∧ defaultTunesInstances b
      = instanceOf (opt_tunesData options)
          <$> filter (λ tune, isInternal tune = true)
                (tool_tunes (opt_tool options)).
Proof.
  apply (tunes_instantiated_by_kind 0%nat options state0
           paragraphTool_names_NoDup).
Defined.

(** The data stored for the user tune [anchor], whose save hook throws in
    world [1]: the record of the save has nothing under its name. *)
Lemma stored_data_of_loaded_tune_witness :
  ∃ b st1 r st2,
    new 0%nat optionsAnchor state0 = (Returned b, st1)
    ∧ save 1%nat b st1 = (Returned (Some r), st2)
    ∧ deref (heap st2) (saved_tunes r) !! tune_name anchorTune
      = if isInternal anchorTune then Some "stored" else None.
Proof.
  apply (stored_data_of_loaded_tune 0%nat optionsAnchor state0 anchorTune
           "stored" 1%nat "hi").
  - exact paragraphTool_names_NoDup.
  - simpl. unfold anchorTune. set_solver.
  - reflexivity.
  - reflexivity.
  - reflexivity.
Defined.

Lemma paragraphTool_wrapsPlainly tune data :
  tune ∈ tool_tunes (opt_tool options) →
  wrapsPlainly 0%nat (tune_create tune data).
Proof.
  simpl. intros Hin. repeat (apply elem_of_cons in Hin as [->|Hin]);
    [..|by apply elem_of_nil in Hin];
    intros wrap inner [= <-]; right; eexists _, _, _;
    (split; [|reflexivity]); compute_done.
Defined.

(** No node being an extension node, [pluginsContent] of the new unit is
    what the paragraph tool rendered. *)
Lemma pluginsContent_of_new_unit_witness :
  ∃ b st1,
    new 0%nat options state0 = (Returned b, st1)
    ∧ pluginsContent (λ _, false) (holder b)
      = let rendered := tool_render (toolInstance b) in
        let handle :=
          setAttribute (appendChild (make "div" CSS.dnd) (svg "drag" 13 13))
            "draggable" "true" in
        if negb ((λ _ : HTMLElement, false) rendered) then Some rendered
        else if negb ((λ _ : HTMLElement, false) handle) then Some handle
        else None.
Proof.
  apply (pluginsContent_of_new_unit (λ _, false) 0%nat options state0).
  intros tune data. apply paragraphTool_wrapsPlainly.
Defined.

(** The unit selected with its three inputs, focused when it has two,
    and unselected then. *)
Lemma select_unselect_round_trip_witness :
  ∃ b st1,
    new 0%nat options state0 = (Returned b, st1)
    ∧ ∃ s1 l s2,
        willSelect 0%nat b
          {| unitState := st1; observing := false; listeners := [] |}
        = (Returned (), s1)
        ∧ observing s1 = true
        ∧ (∀ x, x ∈ listeners s1
                ↔ x ∈ inputListeners 0%nat (findAllInputs 0%nat))
        ∧ (inputs 1%nat (unitState (afterSteps b focusLater s1))).1
          = Returned l
        ∧ willUnselect 1%nat (afterSteps b focusLater s1) = (Returned (), s2)
        ∧ observing s2 = false
        ∧ (∀ x, x ∈ listeners s2 ↔ x ∈ listeners s1 ∧ x.1 ∉ l)
        ∧ (focusLater = [] → listeners s2 = []).
Proof.
  apply (select_unselect_round_trip 0%nat options state0 0%nat focusLater
           1%nat).
  reflexivity.
Defined.

(** There the focus listener of the third input is left registered. *)
Example unselect_after_focus_leaves_listener :
  ∃ b st1 s1 s2,
    new 0%nat options state0 = (Returned b, st1)
    ∧ willSelect 0%nat b
        {| unitState := st1; observing := false; listeners := [] |}
      = (Returned (), s1)
    ∧ willUnselect 1%nat (afterSteps b focusLater s1) = (Returned (), s2)
    ∧ listeners s2 = [(12%nat, "focus")].
Proof.
  eexists _, _, _, _.
  split; [vm_compute; reflexivity|].
  split; [vm_compute; reflexivity|].
  split; vm_compute; reflexivity.
Qed.

(** The [updated] method of the tool throws [null]: the handler of
    mutations throws a TypeError after the call and emits nothing. *)
Example didMutated_throws_on_null :
  didMutated 0%nat nullThrower textBatch state0
  = (Thrown (Error "Cannot read properties of null (reading 'message')"),
     {| heap := ∅; cachedInputs := [10; 11; 12]%nat; inputIndex := 2;
        trace := [ToolMethod "updated"] |}).
Proof. reflexivity. Qed.

End MoreScenarioProperties.
